(** * ai-pid: the symbol matcher and the graph viewer

    A shallow embedding of [static/pid_symbols.js] and
    [static/graph_viewer.js], and the properties of the design notes
    checked against it.

    Conventions of the embedding.
    - A JavaScript string is a [string]: a sequence of code units, here the
      code units below 256 (ASCII and Latin-1).  [toLowerCase] is closed on
      that range, and no character of it outside [A-Z] lowers into [a-z].
    - A JavaScript number that counts something (a length, an edit
      distance, an index) is a [nat]; a number that is measured (a score, a
      coordinate) is a binary64 [float], with the IEEE operations of the
      kernel, which are those of JavaScript.
    - An object used as a dictionary is a [gmap] over its own string keys;
      where the code reads or writes such an object with a key that it
      does not choose ([positions[node.id()]], [positionsMap[nodeId]]), the
      members that every object inherits from [Object.prototype] are
      modelled with it.
    - [JSON.stringify] writes a finite coordinate as a number that
      [JSON.parse] reads back; the theorems that read a stored coordinate
      have the finiteness as a hypothesis.
    - Module-level variables are the fields of a record that is passed
      along; an [await] is a point where a function hands the state back.
    - Both scripts are loaded in the page, [pid_symbols.js] first. *)

From Stdlib Require Import Floats ZArith Ascii String.
From stdpp Require Import gmap strings list pretty.

Set Warnings "-inexact-float,-register-all".

Local Open Scope string_scope.
Local Open Scope list_scope.

(** ** Strings as lists of code units *)

Abbreviation chars := String.list_ascii_of_string.
Abbreviation str := String.string_of_list_ascii.

Definition code (c : ascii) : nat := nat_of_ascii c.

Definition between (lo hi : nat) (c : ascii) : bool :=
  Nat.leb lo (code c) && Nat.leb (code c) hi.

(** [a-z], [A-Z] and [a-z0-9] of the regular expressions. *)
Definition is_lower : ascii -> bool := between 97 122.
Definition is_upper : ascii -> bool := between 65 90.
Definition is_digit : ascii -> bool := between 48 57.
Definition is_alnum (c : ascii) : bool := is_lower c || is_digit c.

(** [\s] on the code units below 256: tab, line feed, vertical tab, form
    feed, carriage return, space and the no-break space. *)
Definition is_space (c : ascii) : bool :=
  between 9 13 c || Nat.eqb (code c) 32 || Nat.eqb (code c) 160.

(** [String.prototype.toLowerCase] on one code unit: the ASCII capitals and
    the Latin-1 capitals (U+00C0 to U+00DE without the multiplication sign)
    move up by 32. *)
Definition lower_char (c : ascii) : ascii :=
  if is_upper c || (between 192 222 c && negb (Nat.eqb (code c) 215))
  then ascii_of_nat (code c + 32) else c.

Definition toLowerCase (s : list ascii) : list ascii := map lower_char s.

(** [s.split(sep)] for a one-character separator: the pieces between the
    separators, empty pieces included; the empty string gives one empty
    piece. *)
Fixpoint split (sep : ascii) (s : list ascii) : list (list ascii) :=
  match s with
  | [] => [[]]
  | c :: r =>
      if Ascii.eqb c sep then [] :: split sep r
      else match split sep r with
           | h :: t => (c :: h) :: t
           | [] => [[c]]
           end
  end.

(** [pieces.join(sep)]. *)
Fixpoint join (sep : ascii) (l : list (list ascii)) : list ascii :=
  match l with
  | [] => []
  | [t] => t
  | t :: r => t ++ sep :: join sep r
  end.

(** ** pid_symbols.js *)

Definition SYNONYM_MAP : list (string * string) :=
  [ ("ball_valve", "valve");
    ("gate_valve", "gate_valve");
    ("globe_valve", "valve");
    ("check_valve", "check_valve");
    ("control_valve", "control_valve");
    ("pressure_gauge", "pressure_indicator");
    ("pressure_indicator", "pressure_indicator");
    ("temperature_indicator", "temperature_indicator");
    ("temperature_control", "temperature_control");
    ("flow_indicator", "flow_indicator");
    ("flow_control", "flow_control");
    ("level_indicator", "level_indicator");
    ("level_control", "level_control");
    ("heat_exchanger", "heat_exchanger");
    ("condenser", "heat_exchanger");
    ("reboiler", "heat_exchanger");
    ("evaporator", "heat_exchanger");
    ("compressor", "compressor");
    ("blower", "compressor");
    ("pump", "pump");
    ("meter", "meter");
    ("sensor", "sensor");
    ("reactor", "reactor");
    ("vessel", "vessel");
    ("drum", "vessel");
    ("column", "vessel");
    ("knockout", "separator");
    ("separator", "separator");
    ("tank", "tank");
    ("filter", "filter");
    ("strainer", "filter");
    ("controller", "controller") ].

(** [SYNONYM_MAP[key]] for an own key.  The one inherited property a
    normalized name can spell, [constructor], is a function: it is truthy
    but no catalog name, so the synonym test fails on it as it does on
    [undefined], and [None] stands for both. *)
Definition synonym_of (key : string) : option string :=
  (list_to_map SYNONYM_MAP : gmap string string) !! key.

Definition STOPWORDS : list string :=
  [ "the"; "a"; "an"; "of"; "and"; "unit"; "system"; "station"; "main";
    "aux"; "spare"; "area"; "section"; "line" ].

(** [name.replace(/([a-z])([A-Z])/g, '$1 $2')]: a space between a small
    letter and the capital that follows it.  A match ends on a capital,
    which starts no other match, so the scan may resume on that capital. *)
Fixpoint camelSpaced (s : list ascii) : list ascii :=
  match s with
  | a :: r =>
      match r with
      | b :: _ =>
          if is_lower a && is_upper b then a :: " "%char :: camelSpaced r
          else a :: camelSpaced r
      | [] => [a]
      end
  | [] => []
  end.

(** [.replace(/[^a-z0-9]+/g, ' ')]: every maximal run of other characters
    becomes one space; [inRun] says that the run has started. *)
Fixpoint nonAlnumToSpace (inRun : bool) (s : list ascii) : list ascii :=
  match s with
  | [] => []
  | c :: r =>
      if is_alnum c then c :: nonAlnumToSpace false r
      else if inRun then nonAlnumToSpace true r
      else " "%char :: nonAlnumToSpace true r
  end.

(** [t => t && !STOPWORDS.has(t)]. *)
Definition keepToken (t : list ascii) : bool :=
  negb (bool_decide (t = [])) && negb (bool_decide (str t ∈ STOPWORDS)).

Definition normalizeTokens (name : list ascii) : list (list ascii) :=
  let spaced := camelSpaced name in
  let cleaned := nonAlnumToSpace false (toLowerCase spaced) in
  List.filter keepToken (split " " cleaned).

Definition normalizeName (name : string) : string :=
  if bool_decide (name = "") then ""
  else str (join "_" (normalizeTokens (chars name))).

(** [sym.split('_').filter(Boolean)]. *)
Definition tokenize (sym : string) : list string :=
  map str (List.filter (fun t => negb (bool_decide (t = []))) (split "_" (chars sym))).

(** The edit matrix: [matrix[j][i]] read and written in place.  The loops
    below stay inside the allocated rows and columns. *)
Definition mget (matrix : list (list nat)) (j i : nat) : nat :=
  default 0 (matrix !! j ≫= (.!! i)).

Definition mset (matrix : list (list nat)) (j i v : nat) : list (list nat) :=
  alter (<[i:=v]>) j matrix.

Definition MAX_LEN : nat := 1000.

(** [str1[i - 1] === str2[j - 1] ? 0 : 1]. *)
Definition indicator (s1 s2 : list ascii) (i j : nat) : nat :=
  if bool_decide (s1 !! (i - 1) = s2 !! (j - 1)) then 0 else 1.

Definition levenshteinDistance (str1 str2 : string) : nat :=
  let s1 := chars str1 in
  let s2 := chars str2 in
  let len1 := length s1 in
  let len2 := length s2 in
  if Nat.ltb MAX_LEN len1 || Nat.ltb MAX_LEN len2 then Nat.max len1 len2
  else
    let matrix := replicate (len2 + 1) (replicate (len1 + 1) 0) in
    let matrix := foldl (fun m i => mset m 0 i i) matrix (seq 0 (len1 + 1)) in
    let matrix := foldl (fun m j => mset m j 0 j) matrix (seq 0 (len2 + 1)) in
    let matrix :=
      foldl (fun m j =>
        foldl (fun m i =>
          mset m j i
            (Nat.min (mget m j (i - 1) + 1)
               (Nat.min (mget m (j - 1) i + 1)
                        (mget m (j - 1) (i - 1) + indicator s1 s2 i j))))
          m (seq 1 len1))
        matrix (seq 1 len2) in
    mget matrix len2 len1.

(** A count as a JavaScript number (exact below 2^53; no string is that
    long). *)
Definition num (n : nat) : float := PrimFloat.of_uint63 (Uint63.of_Z (Z.of_nat n)).

Definition calculateSimilarity (str1 str2 : string) : float :=
  let maxLen := Nat.max (String.length str1) (String.length str2) in
  let editScore :=
    if Nat.eqb maxLen 0 then 1%float
    else (1 - num (levenshteinDistance str1 str2) / num maxLen)%float in
  let t1 := tokenize str1 in
  let t2 := tokenize str2 in
  let tokenHits := length (List.filter (fun t => bool_decide (t ∈ t2)) t1) in
  let tokenScore :=
    if Nat.eqb (length t1) 0 then 0%float
    else (num tokenHits / num (length t1))%float in
  (0.65 * tokenScore + 0.35 * editScore)%float.

Record scored := Scored { symbol : string; score : float }.

(** [(a, b) => b.score - a.score]. *)
Definition byScoreDesc (a b : scored) : float := (score b - score a)%float.

(** [Array.prototype.sort] with a comparison function.  The sort is stable,
    and for a comparison function that orders its arguments consistently
    every stable sort gives the same array; the one written here inserts
    each element, from the last to the first, before the elements that the
    comparison function does not put ahead of it. *)
Fixpoint sortInsert {A} (compareFn : A -> A -> float) (x : A) (l : list A) : list A :=
  match l with
  | [] => [x]
  | y :: r =>
      if (0 <? compareFn x y)%float then y :: sortInsert compareFn x r
      else x :: l
  end.

Definition sort {A} (compareFn : A -> A -> float) (l : list A) : list A :=
  foldr (sortInsert compareFn) [] l.

(** The score a symbol gets in [findBestSymbol]: [isNaN(score) ? 0 : score]. *)
Definition scoreOf (normalized symbol : string) : scored :=
  let score := calculateSimilarity normalized symbol in
  Scored symbol (if PrimFloat.is_nan score then 0%float else score).

(** The last step of [findBestSymbol], from [SYMBOL_NAMES.map] on: score
    every symbol, sort by falling score, and accept the first one from 0.4
    up.  (No synonym target is the empty string, so [synonym &&] only
    tests that the key is there.) *)
Definition bestScored (SYMBOL_NAMES : list string) (normalized : string) : option scored :=
  let scores := map (scoreOf normalized) SYMBOL_NAMES in
  let scores := sort byScoreDesc scores in
  head scores.

Definition acceptBest (best : option scored) : option string :=
  match best with
  | Some best => if (0.4 <=? score best)%float then Some (symbol best) else None
  | None => None
  end.

(** [findBestSymbol] reads [SYMBOL_NAMES]; it is the first argument here. *)
Definition findBestSymbol (SYMBOL_NAMES : list string) (nodeName : string) : option string :=
  if Nat.eqb (length SYMBOL_NAMES) 0 then None
  else
    let normalized := normalizeName nodeName in
    if bool_decide (normalized = "") then None
    else if Nat.ltb 500 (String.length normalized) then None
    else if bool_decide (normalized ∈ SYMBOL_NAMES) then Some normalized
    else
      match synonym_of normalized with
      | Some synonym =>
          if bool_decide (synonym ∈ SYMBOL_NAMES) then Some synonym
          else acceptBest (bestScored SYMBOL_NAMES normalized)
      | None => acceptBest (bestScored SYMBOL_NAMES normalized)
      end.

(** *** The catalog and its load *)

(** A value read from a JSON text; an object is the list of its
    properties, each key once. *)
Inductive json :=
  | JNull
  | JBool (b : bool)
  | JNum (n : float)
  | JStr (s : string)
  | JArr (items : list json)
  | JObj (fields : list (string * json)).

(** [v.key] for one of the keys read here ([success], [symbols], [name]),
    none of which a string, an array or [Object.prototype] carries:
    [None] is the TypeError of a property read on [null], [Some None] is
    [undefined]. *)
Definition getProp (v : json) (key : string) : option (option json) :=
  match v with
  | JNull => None
  | JObj fields => Some ((snd ∘ snd) <$> list_find (fun kv => fst kv = key) fields)
  | _ => Some None
  end.

(** Truthiness of a value that may be [undefined]. *)
Definition truthy (v : option json) : bool :=
  match v with
  | None | Some JNull => false
  | Some (JBool b) => b
  | Some (JNum n) => negb (n =? 0)%float && negb (PrimFloat.is_nan n)
  | Some (JStr s) => negb (bool_decide (s = ""))
  | Some (JArr _) | Some (JObj _) => true
  end.

(** [.replace(/\s+/g, '_')]. *)
Fixpoint spacesToUnderscore (inRun : bool) (s : list ascii) : list ascii :=
  match s with
  | [] => []
  | c :: r =>
      if is_space c then
        if inRun then spacesToUnderscore true r
        else "_"%char :: spacesToUnderscore true r
      else c :: spacesToUnderscore false r
  end.

(** The callback of [data.symbols.map]: [None] is a TypeError ([sym] is
    [null], or [sym.name] is truthy and no string), [Some None] is the
    [null] it returns for an entry without a name. *)
Definition symbolName (sym : json) : option (option string) :=
  match sym with
  | JStr s => Some (Some s)
  | _ =>
      match getProp sym "name" with
      | None => None
      | Some name =>
          if truthy name then
            match name with
            | Some (JStr n) => Some (Some (str (spacesToUnderscore false (toLowerCase (chars n)))))
            | _ => None
            end
          else Some None
      end
  end.

(** [data.symbols.map(...).filter(Boolean)]; [None] when it throws: on a
    value that is no array, or in the callback. *)
Definition symbolNames (symbols : json) : option (list string) :=
  match symbols with
  | JArr items =>
      names ← mapM symbolName items;
      Some (omap (fun n => n ≫= fun s => if bool_decide (s = "") then None else Some s) names)
  | _ => None
  end.

(** The three module-level variables. *)
Record catalog := Catalog {
  ALL_SYMBOLS : json;
  SYMBOL_NAMES : list string;
  SYMBOLS_LOADED : bool
}.

Definition catalog0 : catalog := Catalog (JArr []) [] false.

(** What the request to [/api/symbols] comes to: [fetch] rejects, the
    response is not [ok], [response.json()] rejects, or a value is read. *)
Inductive fetched :=
  | NetworkError
  | NotOk (status : nat)
  | BadJson
  | Payload (data : json).

(** [loadSymbols] up to its first [await]: [true] when it goes on to
    [fetch], [false] when it returns at once. *)
Definition loadSymbols_fetches (c : catalog) : bool := negb (SYMBOLS_LOADED c).

(** [loadSymbols] from the answer on.  (Between [await fetch] and [await
    response.json()] it touches no variable, so the two are one suspension
    here.)  Every exception is caught by the [try]; what was assigned
    before it stays assigned. *)
Definition loadSymbols_resume (r : fetched) (c : catalog) : catalog :=
  match r with
  | NetworkError | NotOk _ | BadJson => c
  | Payload data =>
      match getProp data "success", getProp data "symbols" with
      | Some success, Some symbols =>
          if truthy success && truthy symbols then
            let symbols := default JNull symbols in
            match symbolNames symbols with
            | Some names => Catalog symbols names true
            | None => Catalog symbols (SYMBOL_NAMES c) (SYMBOLS_LOADED c)
            end
          else c
      | _, _ => c
      end
  end.

(** The page: the catalog, and how many requests for it have been sent.
    [net k] is what request number [k] comes to. *)
Record page := Page { cat : catalog; sent : nat }.

Definition page0 : page := Page catalog0 0.

(** [await loadSymbols()] with nothing else running meanwhile. *)
Definition loadSymbols (net : nat -> fetched) (p : page) : page :=
  if loadSymbols_fetches (cat p)
  then Page (loadSymbols_resume (net (sent p)) (cat p)) (S (sent p))
  else p.

(** Calls of [loadSymbols] running side by side on the one thread: [Call]
    starts one, which runs to its [await]; [Settle r] brings the answer to
    the oldest request that waits, and the call runs to its end. *)
Inductive event := Call | Settle (r : fetched).

Record running := Running { state : page; waiting : nat }.

Definition step (s : running) (e : event) : running :=
  match e with
  | Call =>
      if loadSymbols_fetches (cat (state s))
      then Running (Page (cat (state s)) (S (sent (state s)))) (S (waiting s))
      else s
  | Settle r =>
      match waiting s with
      | O => s
      | S n => Running (Page (loadSymbols_resume r (cat (state s))) (sent (state s))) n
      end
  end.

Definition run (s : running) (es : list event) : running := foldl step s es.

(** [getNodeStyle]: the image of the style it returns, [undefined] for the
    grey fallback. *)
Definition getNodeStyle (net : nat -> fetched) (nodeName : string) (p : page)
  : option string * page :=
  let p := if SYMBOLS_LOADED (cat p) then p else loadSymbols net p in
  match findBestSymbol (SYMBOL_NAMES (cat p)) nodeName with
  | Some bestSymbol => (Some ("/static/symbols/" +:+ bestSymbol +:+ ".png"), p)
  | None => (None, p)
  end.

Definition ensureSymbolsLoaded := loadSymbols.

(** ** graph_viewer.js *)

(** [{x, y}]. *)
Record position := Position { x : float; y : float }.

(** The item [graphNodePositions] of [localStorage]: [None] while it was
    never written, else the object that the stored text denotes. *)
Abbreviation storage := (option (gmap string position)).

(** [JSON.parse(JSON.stringify(n))] for a finite number: the text
    round-trips every finite double, and prints the negative zero as [0]. *)
Definition throughJSON (n : float) : float :=
  if (n =? 0)%float then 0%float else n.

(** A node of the live graph: [node.id()] and [node.position()]. *)
Record cyNode := CyNode { nodeId : string; nodePosition : position }.

(** The names of the members of [Object.prototype], which a read [o[k]]
    finds in an object literal or a parsed object [o] that has no own
    property [k].  All of them are truthy: functions, and for [__proto__]
    the prototype itself. *)
Definition Object_prototype : list string :=
  ["constructor"; "__defineGetter__"; "__defineSetter__"; "hasOwnProperty";
   "__lookupGetter__"; "__lookupSetter__"; "isPrototypeOf"; "propertyIsEnumerable";
   "toString"; "valueOf"; "__proto__"; "toLocaleString"].

(** [positions[id] = pos] on the object literal [positions], as to the own
    properties that [JSON.stringify] writes: for the key [__proto__] the
    assignment runs the setter inherited from [Object.prototype], which
    makes [pos] the prototype of [positions] and adds no property; for any
    other key, inherited or not, it sets an own property. *)
Definition assign (positions : gmap string position) (id : string) (pos : position)
  : gmap string position :=
  if bool_decide (id = "__proto__") then positions else <[id := pos]> positions.

(** [saveNodePositions(cy)], from [cy.nodes()] to the new item. *)
Definition saveNodePositions (nodes : list cyNode) : storage :=
  let positions :=
    foldl (fun positions node => assign positions (nodeId node) (nodePosition node))
          (∅ : gmap string position) nodes in
  Some ((fun pos => Position (throughJSON (x pos)) (throughJSON (y pos))) <$> positions).

(** [loadNodePositions()]. *)
Definition loadNodePositions (saved : storage) : gmap string position :=
  default ∅ saved.

(** What [nodeElement.position] can hold: the coordinates of the entry or
    of the store, or the member of [Object.prototype] that the read
    [positionsMap[nodeId]] found. *)
Inductive positionValue :=
  | Coordinates (pos : position)
  | Inherited (member : string).

(** [positionsMap[nodeId]], [None] for [undefined]: the own property, else
    the inherited member. *)
Definition readPosition (positionsMap : gmap string position) (nodeId : string)
  : option positionValue :=
  match positionsMap !! nodeId with
  | Some pos => Some (Coordinates pos)
  | None =>
      if bool_decide (nodeId ∈ Object_prototype) then Some (Inherited nodeId) else None
  end.

(** An entry of [nodes]: a string; an object whose [id] is a string or is
    absent (with its [imageUrl] and [position], each possibly absent);
    [null]; or another value that the loop skips with its warning (a
    number, a boolean, [undefined]).  An object whose [id] is truthy and
    no string is none of these. *)
Inductive nodeInput :=
  | NodeString (id : string)
  | NodeObject (id imageUrl : option string) (pos : option position)
  | NodeNull
  | NodeOther.

(** An entry of [edges]: an array, an object (its string properties),
    [null], or anything else. *)
Inductive edgeInput :=
  | EdgeArray (items : list string)
  | EdgeObject (fields : list (string * string))
  | EdgeNull
  | EdgeOther.

(** The elements handed to [cytoscape]. *)
Record nodeElement := NodeElement {
  data_id : string;
  data_label : string;
  data_imageUrl : option string;
  el_position : option positionValue
}.

Record edgeElement := EdgeElement {
  edge_id : string;
  edge_source : string;
  edge_target : string
}.

(** [layout: hasSavedPositions ? { name: 'preset' } : { name: 'dagre', ... }]. *)
Inductive layout := Preset | Dagre.

(** [v || ...] on a string that may be absent: the empty string is falsy. *)
Definition nonEmpty (v : option string) : option string :=
  v ≫= fun s => if bool_decide (s = "") then None else Some s.

(** [a || b]. *)
Definition orElse (a b : option string) : option string :=
  match nonEmpty a with Some s => Some s | None => b end.

Definition field (fields : list (string * string)) (key : string) : option string :=
  (snd ∘ snd) <$> list_find (fun kv => fst kv = key) fields.

(** The body of the loop over [nodes] for one entry: [None] is the
    TypeError of [nodeOrId.id] on [null], [Some None] is an entry skipped
    with a warning. *)
Definition nodeElementOf (net : nat -> fetched) (positionsMap : gmap string position)
    (nodeOrId : nodeInput) (p : page) : option (option nodeElement) * page :=
  let parsed :=
    match nodeOrId with
    | NodeString id => Some (Some (id, None, None))
    | NodeObject id imageUrl pos =>
        match nonEmpty id with
        | Some id => Some (Some (id, nonEmpty imageUrl, pos))
        | None => Some None
        end
    | NodeNull => None
    | NodeOther => Some None
    end in
  match parsed with
  | None => (None, p)
  | Some None => (Some None, p)
  | Some (Some (nodeId, customImageUrl, nodePosition)) =>
      let '(imageUrl, p) :=
        match customImageUrl with
        | Some url => (Some url, p)
        | None => getNodeStyle net nodeId p
        end in
      let pos :=
        match nodePosition with
        | Some pos => Some (Coordinates pos)
        | None => readPosition positionsMap nodeId
        end in
      (Some (Some (NodeElement nodeId nodeId imageUrl pos)), p)
  end.

(** The loop over [nodes]: the elements pushed, or [None] when an entry
    throws. *)
Fixpoint nodeElements (net : nat -> fetched) (positionsMap : gmap string position)
    (nodes : list nodeInput) (p : page) : option (list nodeElement) * page :=
  match nodes with
  | [] => (Some [], p)
  | nodeOrId :: rest =>
      match nodeElementOf net positionsMap nodeOrId p with
      | (None, p) => (None, p)
      | (Some el, p) =>
          let '(els, p) := nodeElements net positionsMap rest p in
          ((fun els => option_list el ++ els) <$> els, p)
      end
  end.

(** The callback of [edges.forEach] at index [idx]: [None] is the
    TypeError of [edge.source] on [null], [Some None] is an edge without
    a truthy source or target. *)
Definition edgeElementOf (idx : nat) (edge : edgeInput) : option (option edgeElement) :=
  let ends :=
    match edge with
    | EdgeArray items => Some (items !! 0, items !! 1)
    | EdgeObject fields =>
        Some (orElse (field fields "source") (orElse (field fields "from")
                (orElse (field fields "src") (field fields "0"))),
              orElse (field fields "target") (orElse (field fields "to")
                (orElse (field fields "dst") (field fields "1"))))
    | EdgeNull => None
    | EdgeOther => Some (None, None)
    end in
  '(source, target) ← ends;
  match nonEmpty source, nonEmpty target with
  | Some source, Some target =>
      Some (Some (EdgeElement ("edge-" +:+ pretty idx) source target))
  | _, _ => Some None
  end.

Definition edgeElements (edges : list edgeInput) : option (list edgeElement) :=
  (fun els => omap id els) <$> mapM (fun ie => edgeElementOf ie.1 ie.2) (imap pair edges).

(** The graph that [cytoscape] builds. *)
Record graph := Graph {
  graph_nodes : list nodeElement;
  graph_edges : list edgeElement;
  graph_layout : layout
}.

(** Modelled from the spec: the constructor of the rendering library,
    which is vendored and not among the sources.  By sections 3 and 7 an
    edge whose source or target is not the id of a node of the graph is
    excluded, silently; the nodes and the layout are taken as given. *)
Definition cytoscape (nodes : list nodeElement) (edges : list edgeElement)
    (l : layout) : graph :=
  let ids := data_id <$> nodes in
  Graph nodes
        (List.filter (fun e => bool_decide (edge_source e ∈ ids) && bool_decide (edge_target e ∈ ids)) edges)
        l.

(** Modelled from the spec: where the fixed layout shows the node [id],
    which is at the coordinates that its element gives; [None] when the
    element gives none, and for the automatic layout, whose placement is
    the library's. *)
Definition placed (g : graph) (id : string) : option position :=
  match graph_layout g with
  | Preset =>
      '(_, el) ← list_find (fun el => data_id el = id) (graph_nodes g);
      match el_position el with
      | Some (Coordinates pos) => Some pos
      | _ => None
      end
  | Dagre => None
  end.

(** How a call of [initGraphViewer] ends: it returns nothing for want of
    the container, it throws, or it returns the graph. *)
Inductive outcome := NoContainer | Thrown | Built (g : graph).

(** [initGraphViewer(containerId, nodes, edges)]; [container] says whether
    the document has the element, [saved] is the stored item.  The loop
    over [svgUrl] does nothing, no element having that field, and the
    handlers it registers are the definitions further down. *)
Definition initGraphViewer (net : nat -> fetched) (container : bool) (saved : storage)
    (nodes : list nodeInput) (edges : list edgeInput) (p : page) : outcome * page :=
  let p := ensureSymbolsLoaded net p in
  if negb container then (NoContainer, p)
  else
    let positionsMap := loadNodePositions saved in
    match nodeElements net positionsMap nodes p with
    | (None, p) => (Thrown, p)
    | (Some nodeEls, p) =>
        match edgeElements edges with
        | None => (Thrown, p)
        | Some edgeEls =>
            let hasSavedPositions := Nat.ltb 0 (size positionsMap) in
            (Built (cytoscape nodeEls edgeEls (if hasSavedPositions then Preset else Dagre)), p)
        end
    end.

(** [Math.round]: the integer nearest to the exact value of [v], the upper
    one of two that are as near; zeros, infinities and NaN are returned as
    they are, and a result of zero keeps the sign of [v]. *)
Definition Math_round (v : float) : float :=
  match Prim2SF v with
  | S754_finite s m e =>
      if (0 <=? e)%Z then v
      else
        let n := ((cond_Zopp s (Zpos m) + 2 ^ (- e - 1)) / 2 ^ (- e))%Z in
        if (n =? 0)%Z then (if s then (-0)%float else 0%float)
        else SF2Prim (binary_normalize prec emax n 0 false)
  | _ => v
  end.

Definition GRID_SIZE : float := 40%float.

(** [snapNodeToGrid(node)]: the position it gives the node. *)
Definition snapNodeToGrid (pos : position) : position :=
  Position (Math_round (x pos / GRID_SIZE) * GRID_SIZE)
           (Math_round (y pos / GRID_SIZE) * GRID_SIZE).

(** The handler of [dragfree] for the node [target]: the nodes and the
    stored item after it. *)
Definition onDragFree (target : string) (nodes : list cyNode) : list cyNode * storage :=
  let nodes :=
    map (fun node =>
           if bool_decide (nodeId node = target)
           then CyNode (nodeId node) (snapNodeToGrid (nodePosition node))
           else node) nodes in
  (nodes, saveNodePositions nodes).

(** * Properties *)

(** ** Characters *)

Ltac all_chars c := destruct c as [[] [] [] [] [] [] [] []]; vm_compute; try done.

Lemma alnum_not_upper c : is_alnum c = true -> is_upper c = false.
Proof. all_chars c. Qed.

Lemma alnum_lower_char c : is_alnum c = true -> lower_char c = c.
Proof. all_chars c. Qed.

Lemma alnum_not_space c : is_alnum c = true -> c <> " "%char.
Proof. all_chars c. Qed.

Lemma alnum_not_underscore c : is_alnum c = true -> c <> "_"%char.
Proof. all_chars c. Qed.

Lemma chars_str l : chars (str l) = l.
Proof. apply list_ascii_of_string_of_list_ascii. Qed.

Lemma str_chars s : str (chars s) = s.
Proof. apply string_of_list_ascii_of_string. Qed.

Lemma length_chars s : length (chars s) = String.length s.
Proof. induction s; simpl; congruence. Qed.

(** ** Splitting and joining *)

Lemma split_nonempty sep s : split sep s <> [].
Proof. destruct s as [|c r]; simpl; [done|]. destruct (Ascii.eqb c sep); [done|]. by destruct (split sep r). Qed.

(** A piece without the separator, followed by a separator, is the first
    piece of the split. *)
Lemma split_app sep t r :
  Forall (fun c => c <> sep) t ->
  split sep (t ++ sep :: r) = t :: split sep r.
Proof.
  induction 1 as [|c t Hc Ht IH]; simpl.
  - by rewrite Ascii.eqb_refl.
  - rewrite IH. destruct (Ascii.eqb_spec c sep); [done|done].
Qed.

Lemma split_one sep t :
  Forall (fun c => c <> sep) t -> split sep t = [t].
Proof.
  induction 1 as [|c t Hc Ht IH]; simpl; [done|].
  rewrite IH. by destruct (Ascii.eqb_spec c sep).
Qed.

Lemma split_join sep ts :
  ts <> [] ->
  Forall (Forall (fun c => c <> sep)) ts ->
  split sep (join sep ts) = ts.
Proof.
  intros Hne Hts. induction Hts as [|t ts Ht Hts IH]; [done|].
  destruct ts as [|t' ts].
  - simpl. by apply split_one.
  - change (join sep (t :: t' :: ts)) with (t ++ sep :: join sep (t' :: ts)).
    rewrite split_app by done. f_equal. by apply IH.
Qed.

(** The pieces of a split are made of the characters of the string, the
    separator apart. *)
Lemma split_pieces (P : ascii -> Prop) sep s :
  Forall (fun c => c = sep \/ P c) s ->
  Forall (Forall P) (split sep s).
Proof.
  induction 1 as [|c r Hc Hr IH]; simpl.
  - by repeat constructor.
  - destruct (Ascii.eqb_spec c sep) as [->|Hne].
    + by constructor.
    + assert (P c) as HP by (by destruct Hc).
      destruct (split sep r) as [|h t]; [by repeat constructor|].
      inversion IH; subst. by repeat constructor.
Qed.

(** ** normalizeName *)

Lemma nonAlnumToSpace_chars b s :
  Forall (fun c => c = " "%char \/ is_alnum c = true) (nonAlnumToSpace b s).
Proof.
  revert b. induction s as [|c r IH]; intros b; simpl; [done|].
  destruct (is_alnum c) eqn:Hc; [constructor; auto|].
  destruct b; [done|]. constructor; auto.
Qed.

(** What [normalizeTokens] keeps: non-empty words over [a-z0-9] that are
    no stopwords. *)
Definition canonicalToken (t : list ascii) : Prop :=
  Forall (fun c => is_alnum c = true) t /\ keepToken t = true.

Lemma normalizeTokens_canonical name :
  Forall canonicalToken (normalizeTokens name).
Proof.
  unfold normalizeTokens.
  set (cleaned := nonAlnumToSpace _ _).
  pose proof (split_pieces (fun c => is_alnum c = true) " "%char cleaned
                (nonAlnumToSpace_chars _ _)) as Hp.
  induction Hp as [|t ts Ht Hts IH]; simpl; [done|].
  destruct (keepToken t) eqn:Hk; [|done].
  constructor; [by split|done].
Qed.

Lemma camelSpaced_no_upper s :
  Forall (fun c => is_upper c = false) s -> camelSpaced s = s.
Proof.
  induction 1 as [|a r Ha Hr IH]; [done|].
  simpl. destruct r as [|b r']; [done|].
  inversion Hr as [|?? Hb _]; subst. rewrite Hb, andb_false_r. by rewrite IH.
Qed.

Lemma nonAlnumToSpace_token b t r :
  t <> [] -> Forall (fun c => is_alnum c = true) t ->
  nonAlnumToSpace b (t ++ r) = t ++ nonAlnumToSpace false r.
Proof.
  intros Hne Ht. revert b. induction Ht as [|c t Hc Ht IH]; [done|]; intros b.
  simpl. rewrite Hc. f_equal.
  destruct t as [|c' t']; [done|]. by apply IH.
Qed.

Lemma canonicalToken_nonempty t : canonicalToken t -> t <> [].
Proof. intros [_ Hk] ->. done. Qed.

Lemma nonAlnumToSpace_join b ts :
  ts <> [] -> Forall canonicalToken ts ->
  nonAlnumToSpace b (join "_" ts) = join " " ts.
Proof.
  intros Hne Hts. revert b.
  induction Hts as [|t ts Ht Hts IH]; [done|]; intros b.
  pose proof (canonicalToken_nonempty _ Ht) as Hn. destruct Ht as [Ht _].
  destruct ts as [|t' ts].
  - simpl. rewrite <- (app_nil_r t) at 1.
    rewrite nonAlnumToSpace_token by done. by rewrite app_nil_r.
  - change (join "_" (t :: t' :: ts)) with (t ++ "_"%char :: join "_" (t' :: ts)).
    change (join " " (t :: t' :: ts)) with (t ++ " "%char :: join " " (t' :: ts)).
    rewrite nonAlnumToSpace_token by done.
    f_equal. simpl nonAlnumToSpace at 1. f_equal. by apply IH.
Qed.

Lemma join_chars (P : ascii -> Prop) sep ts :
  P sep -> Forall (Forall P) ts -> Forall P (join sep ts).
Proof.
  intros Hsep. induction 1 as [|t ts Ht Hts IH]; [done|].
  destruct ts as [|t' ts]; [done|].
  change (join sep (t :: t' :: ts)) with (t ++ sep :: join sep (t' :: ts)).
  apply Forall_app. split; [done|]. by constructor.
Qed.

(** Normalizing the joined tokens gives the tokens back. *)
Lemma normalizeTokens_join ts :
  Forall canonicalToken ts -> normalizeTokens (join "_" ts) = ts.
Proof.
  intros Hts. unfold normalizeTokens.
  assert (Forall (Forall (fun c => is_alnum c = true \/ c = "_"%char)) ts) as Hch.
  { eapply Forall_impl; [exact Hts|]. intros t [Ht _].
    eapply Forall_impl; [exact Ht|]. auto. }
  pose proof (join_chars _ "_"%char ts (or_intror eq_refl) Hch) as Hj.
  rewrite camelSpaced_no_upper.
  2:{ eapply Forall_impl; [exact Hj|]. intros c [Hc| ->]; [by apply alnum_not_upper|done]. }
  replace (toLowerCase (join "_" ts)) with (join "_" ts).
  2:{ unfold toLowerCase. symmetry. rewrite <- (map_id (join "_" ts)) at 2.
      apply Forall_fmap_ext_1. eapply Forall_impl; [exact Hj|].
      intros c [Hc| ->]; [by apply alnum_lower_char|done]. }
  destruct ts as [|t ts]; [done|].
  rewrite nonAlnumToSpace_join by done.
  rewrite split_join; [|done|].
  2:{ eapply Forall_impl; [exact Hts|]. intros t0 [Ht0 _].
      eapply Forall_impl; [exact Ht0|]. apply alnum_not_space. }
  clear Hch Hj. generalize (t :: ts) Hts. clear.
  induction 1 as [|t ts Ht Hts IH]; [done|].
  simpl. destruct Ht as [_ ->]. by rewrite IH.
Qed.

(** C4: [normalizeName] is idempotent: for every string,
    [normalizeName (normalizeName x) = normalizeName x]. *)
Theorem normalizeName_idempotent (x : string) :
  normalizeName (normalizeName x) = normalizeName x.
Proof.
  unfold normalizeName at 2 3.
  case_bool_decide; [done|].
  set (ts := normalizeTokens (chars x)).
  unfold normalizeName. case_bool_decide as Hy; [done|].
  rewrite chars_str, normalizeTokens_join; [done|].
  apply normalizeTokens_canonical.
Qed.

(** ** levenshteinDistance *)

(** The recurrence that the loops fill the matrix by: [cell s1 s2 j i] is
    the entry of row [j] and column [i]. *)
Fixpoint cell (s1 s2 : list ascii) (j : nat) : nat -> nat :=
  match j with
  | 0 => fun i => i
  | S j' =>
      fix row (i : nat) : nat :=
        match i with
        | 0 => S j'
        | S i' =>
            Nat.min (row i' + 1)
              (Nat.min (cell s1 s2 j' (S i') + 1)
                       (cell s1 s2 j' i' + indicator s1 s2 (S i') (S j')))
        end
  end.

Lemma cell_S_S s1 s2 j i :
  cell s1 s2 (S j) (S i) =
  Nat.min (cell s1 s2 (S j) i + 1)
    (Nat.min (cell s1 s2 j (S i) + 1) (cell s1 s2 j i + indicator s1 s2 (S i) (S j))).
Proof. reflexivity. Qed.

Lemma cell_j_0 s1 s2 j : cell s1 s2 j 0 = j.
Proof. by destruct j. Qed.

Lemma indicator_sym s1 s2 i j : indicator s1 s2 i j = indicator s2 s1 j i.
Proof. unfold indicator. repeat case_bool_decide; congruence. Qed.

Lemma indicator_same s i : indicator s s i i = 0.
Proof. unfold indicator. by case_bool_decide. Qed.

Lemma cell_sym s1 s2 j i : cell s1 s2 j i = cell s2 s1 i j.
Proof.
  revert i. induction j as [|j IHj]; intros i.
  - by rewrite cell_j_0.
  - induction i as [|i IHi]; [by rewrite cell_j_0|].
    rewrite !cell_S_S, IHi, !IHj, indicator_sym. lia.
Qed.

Lemma cell_diag s i : cell s s i i = 0.
Proof.
  induction i as [|i IH]; [done|].
  rewrite cell_S_S, IH, indicator_same. lia.
Qed.

(** Reading and writing the matrix. *)
Definition dims (rows cols : nat) (m : list (list nat)) : Prop :=
  length m = rows /\ Forall (fun row => length row = cols) m.

Lemma dims_mset rows cols m j i v : dims rows cols m -> dims rows cols (mset m j i v).
Proof.
  intros [Hr Hc]. split; unfold mset.
  - by rewrite length_alter.
  - apply Forall_lookup. intros k row Hk.
    destruct (decide (j = k)) as [->|Hne].
    + rewrite list_lookup_alter_eq in Hk.
      destruct (m !! k) as [row'|] eqn:Hrow; [|done].
      injection Hk as <-. rewrite length_insert.
      by eapply (Forall_lookup_1 _ _ _ _ Hc).
    + rewrite list_lookup_alter_ne in Hk by done.
      by eapply (Forall_lookup_1 _ _ _ _ Hc).
Qed.

Lemma mget_mset rows cols m j i v j' i' :
  dims rows cols m -> j < rows -> i < cols ->
  mget (mset m j i v) j' i' = if decide (j = j' /\ i = i') then v else mget m j' i'.
Proof.
  intros [Hr Hc] Hj Hi. unfold mget, mset.
  destruct (decide (j = j')) as [<-|Hne].
  - rewrite list_lookup_alter_eq.
    destruct (lookup_lt_is_Some_2 m j) as [row Hrow]; [lia|].
    rewrite Hrow. simpl.
    assert (length row = cols) as Hlen by (by eapply (Forall_lookup_1 _ _ _ _ Hc)).
    destruct (decide (i = i')) as [<-|Hne'].
    + rewrite list_lookup_insert_eq by lia. by rewrite decide_True.
    + rewrite list_lookup_insert_ne by done. rewrite decide_False; [done|tauto].
  - rewrite list_lookup_alter_ne by done. rewrite decide_False; [done|tauto].
Qed.

Lemma dims_replicate rows cols : dims rows cols (replicate rows (replicate cols 0)).
Proof.
  split; [by rewrite length_replicate|].
  apply Forall_replicate. by rewrite length_replicate.
Qed.

(** A loop over [start, start + n) keeps what each turn keeps. *)
Lemma foldl_seq_invariant {A} (P : nat -> A -> Prop) (f : A -> nat -> A) a start n :
  P start a ->
  (forall k acc, start <= k < start + n -> P k acc -> P (S k) (f acc k)) ->
  P (start + n) (foldl f a (seq start n)).
Proof.
  revert a start. induction n as [|n IH]; intros a start H0 Hstep; simpl.
  - by rewrite Nat.add_0_r.
  - rewrite <- Nat.add_succ_comm. apply IH.
    + apply Hstep; [lia|done].
    + intros k acc Hk. apply Hstep. lia.
Qed.

Section Matrix.
Variables s1 s2 : list ascii.
Let len1 := length s1.
Let len2 := length s2.

(** The entries that are final once the loops stand at row [J] and
    column [I]. *)
Definition filled (J I : nat) (m : list (list nat)) : Prop :=
  dims (len2 + 1) (len1 + 1) m /\
  forall j i, j <= len2 -> i <= len1 ->
    j = 0 \/ i = 0 \/ j < J \/ (j = J /\ i < I) ->
    mget m j i = cell s1 s2 j i.

Lemma filled_borders :
  let m := foldl (fun m i => mset m 0 i i)
             (replicate (len2 + 1) (replicate (len1 + 1) 0)) (seq 0 (len1 + 1)) in
  filled 1 1 (foldl (fun m j => mset m j 0 j) m (seq 0 (len2 + 1))).
Proof.
  intros m.
  assert (dims (len2 + 1) (len1 + 1) m /\ forall i, i < len1 + 1 -> mget m 0 i = i)
    as [Hd Hrow].
  { apply (foldl_seq_invariant
      (fun k m => dims (len2 + 1) (len1 + 1) m /\ (forall i, i < k -> mget m 0 i = i))
      (fun m i => mset m 0 i i) _ 0 (len1 + 1)).
    - split; [apply dims_replicate|lia].
    - intros k acc Hk [Hd Hrow]. split; [by apply dims_mset|].
      intros i Hi. rewrite (mget_mset _ _ _ _ _ _ _ _ Hd) by lia.
      destruct (decide _) as [[_ <-]|Hk0]; [done|]. apply Hrow. lia. }
  assert (dims (len2 + 1) (len1 + 1) (foldl (fun m j => mset m j 0 j) m (seq 0 (len2 + 1))) /\
          (forall i, i < len1 + 1 -> mget (foldl (fun m j => mset m j 0 j) m (seq 0 (len2 + 1))) 0 i = i) /\
          (forall j, j < len2 + 1 -> mget (foldl (fun m j => mset m j 0 j) m (seq 0 (len2 + 1))) j 0 = j))
    as (Hd' & Hrow' & Hcol').
  { apply (foldl_seq_invariant
      (fun k m => dims (len2 + 1) (len1 + 1) m /\
                  (forall i, i < len1 + 1 -> mget m 0 i = i) /\
                  (forall j, j < k -> mget m j 0 = j))
      (fun m j => mset m j 0 j) _ 0 (len2 + 1)).
    - split; [done|]. split; [done|lia].
    - intros k acc Hk (Hd0 & Hrow0 & Hcol0). split; [by apply dims_mset|]. split.
      + intros i Hi. rewrite (mget_mset _ _ _ _ _ _ _ _ Hd0) by lia.
        destruct (decide _) as [[<- <-]|Hk0]; [done|]. by apply Hrow0.
      + intros j Hj. rewrite (mget_mset _ _ _ _ _ _ _ _ Hd0) by lia.
        destruct (decide _) as [[<- _]|Hk0]; [done|]. apply Hcol0. lia. }
  split; [done|]. intros j i Hj Hi Hc.
  destruct (decide (j = 0)) as [->|Hj0]; [simpl; apply Hrow'; lia|].
  assert (i = 0) as -> by lia. rewrite cell_j_0. apply Hcol'. lia.
Qed.

Lemma filled_cell J I m :
  1 <= J <= len2 -> 1 <= I <= len1 -> filled J I m ->
  filled J (S I)
    (mset m J I
       (Nat.min (mget m J (I - 1) + 1)
          (Nat.min (mget m (J - 1) I + 1)
                   (mget m (J - 1) (I - 1) + indicator s1 s2 I J)))).
Proof.
  intros HJ HI [Hd Hm]. split; [by apply dims_mset|].
  intros j i Hj Hi Hc. rewrite (mget_mset _ _ _ _ _ _ _ _ Hd) by lia.
  case_decide as Heq.
  - destruct Heq as [<- <-].
    rewrite !Hm by lia.
    destruct J as [|J']; [lia|]. destruct I as [|I']; [lia|].
    rewrite cell_S_S. by rewrite !Nat.sub_succ, !Nat.sub_0_r.
  - apply Hm; [done|done|]. lia.
Qed.

Lemma filled_row J m :
  1 <= J <= len2 -> filled J 1 m ->
  filled (S J) 1
    (foldl (fun m i =>
        mset m J i
          (Nat.min (mget m J (i - 1) + 1)
             (Nat.min (mget m (J - 1) i + 1)
                      (mget m (J - 1) (i - 1) + indicator s1 s2 i J))))
      m (seq 1 len1)).
Proof.
  intros HJ Hm.
  match goal with |- filled _ _ (foldl ?f _ _) =>
    pose proof (foldl_seq_invariant (fun I m => filled J I m) f m 1 len1 Hm) as Hrow
  end.
  destruct Hrow as [Hd Hall].
  { intros k acc Hk Hacc. apply filled_cell; [done|lia|done]. }
  split; [done|]. intros j i Hj Hi Hc. apply Hall; [done|done|]. lia.
Qed.

Lemma filled_all m :
  filled 1 1 m ->
  filled (S len2) 1
    (foldl (fun m j =>
      foldl (fun m i =>
        mset m j i
          (Nat.min (mget m j (i - 1) + 1)
             (Nat.min (mget m (j - 1) i + 1)
                      (mget m (j - 1) (i - 1) + indicator s1 s2 i j))))
        m (seq 1 len1))
      m (seq 1 len2)).
Proof.
  intros Hm.
  match goal with |- filled _ _ (foldl ?f _ _) =>
    apply (foldl_seq_invariant (fun J m => filled J 1 m) f m 1 len2 Hm)
  end.
  intros k acc Hk Hacc. apply filled_row; [lia|done].
Qed.
End Matrix.

(** Below the length guard the function returns the last entry of the
    recurrence. *)
Lemma levenshteinDistance_cell str1 str2 :
  String.length str1 <= MAX_LEN -> String.length str2 <= MAX_LEN ->
  levenshteinDistance str1 str2 =
  cell (chars str1) (chars str2) (String.length str2) (String.length str1).
Proof.
  intros H1 H2. unfold levenshteinDistance. rewrite !length_chars.
  destruct (Nat.ltb_spec MAX_LEN (String.length str1)); [lia|].
  destruct (Nat.ltb_spec MAX_LEN (String.length str2)); [lia|].
  simpl orb. cbv iota.
  pose proof (filled_all (chars str1) (chars str2) _ (filled_borders (chars str1) (chars str2)))
    as [_ Hall].
  rewrite !length_chars in Hall. apply Hall; lia.
Qed.

Lemma levenshteinDistance_long str1 str2 :
  MAX_LEN < String.length str1 \/ MAX_LEN < String.length str2 ->
  levenshteinDistance str1 str2 = Nat.max (String.length str1) (String.length str2).
Proof.
  intros H. unfold levenshteinDistance. rewrite !length_chars.
  destruct (Nat.ltb_spec MAX_LEN (String.length str1));
    destruct (Nat.ltb_spec MAX_LEN (String.length str2)); simpl; try done. lia.
Qed.

Lemma levenshteinDistance_sym a b :
  levenshteinDistance a b = levenshteinDistance b a.
Proof.
  destruct (decide (String.length a <= MAX_LEN /\ String.length b <= MAX_LEN)) as [[Ha Hb]|Hlong].
  - rewrite !levenshteinDistance_cell by done. apply cell_sym.
  - rewrite !levenshteinDistance_long by lia. lia.
Qed.

Definition longString : string := str (replicate 1001 "a"%char).

(** C7, as the code has it: the distance of "kitten" and "sitting" is 3;
    the distance of a string of at most 1000 characters to itself is 0,
    and that of a longer string to itself is its length (the guard against
    long inputs answers before any comparison); the distance is symmetric
    for all strings. *)
Theorem levenshteinDistance_properties :
  levenshteinDistance "kitten" "sitting" = 3 /\
  (forall x, String.length x <= 1000 -> levenshteinDistance x x = 0) /\
  (forall x, 1000 < String.length x -> levenshteinDistance x x = String.length x) /\
  (forall a b, levenshteinDistance a b = levenshteinDistance b a).
Proof.
  split; [by vm_compute|]. split; [|split].
  - intros x Hx. rewrite levenshteinDistance_cell by done.
    rewrite <- length_chars. apply cell_diag.
  - intros x Hx. rewrite levenshteinDistance_long by (left; exact Hx). lia.
  - apply levenshteinDistance_sym.
Qed.

Lemma levenshteinDistance_properties_witness :
  String.length "valve" <= 1000 /\ levenshteinDistance "valve" "valve" = 0.
Proof.
  split; [simpl; lia|].
  apply (proj1 (proj2 levenshteinDistance_properties) "valve"). simpl; lia.
Defined.

(** The distance of a string of 1001 characters to itself is not 0. *)
Lemma levenshteinDistance_self_long :
  levenshteinDistance longString longString <> 0.
Proof. by vm_compute. Qed.

(** ** findBestSymbol *)

Lemma synonym_key key target :
  synonym_of key = Some target ->
  key <> "" /\ String.length key <= 500.
Proof.
  unfold synonym_of. intros H. apply elem_of_list_to_map_2 in H.
  assert (Forall (fun kv : string * string =>
            kv.1 <> "" /\ String.length kv.1 <= 500) SYNONYM_MAP) as HF.
  { unfold SYNONYM_MAP. repeat (constructor; [split; [done|simpl; lia]|]). constructor. }
  by apply (proj1 (Forall_forall _ _) HF (key, target)).
Qed.

(** C5: a label whose normalized form is no catalog name, but a key of the
    synonym map whose target is a catalog name, resolves to that target,
    whatever the scores of the catalog names are. *)
Theorem findBestSymbol_synonym (SYMBOL_NAMES : list string) (nodeName target : string) :
  normalizeName nodeName ∉ SYMBOL_NAMES ->
  synonym_of (normalizeName nodeName) = Some target ->
  target ∈ SYMBOL_NAMES ->
  findBestSymbol SYMBOL_NAMES nodeName = Some target.
Proof.
  intros Hexact Hsyn Htarget. unfold findBestSymbol.
  destruct (synonym_key _ _ Hsyn) as [Hne Hlen].
  destruct SYMBOL_NAMES as [|n names]; [by apply elem_of_nil in Htarget|].
  simpl length. simpl Nat.eqb. cbv iota.
  rewrite bool_decide_eq_false_2 by done.
  destruct (Nat.ltb_spec 500 (String.length (normalizeName nodeName))); [lia|].
  rewrite bool_decide_eq_false_2 by done.
  rewrite Hsyn. by rewrite bool_decide_eq_true_2.
Qed.

(** The label "Ball Valve" against the names "valve" and "ball_valves":
    the synonym target "valve" is returned although "ball_valves" has the
    higher score. *)
Lemma findBestSymbol_synonym_witness :
  (score (scoreOf "ball_valve" "valve") <? score (scoreOf "ball_valve" "ball_valves"))%float = true /\
  findBestSymbol ["valve"; "ball_valves"] "Ball Valve" = Some "valve".
Proof.
  split; [by vm_compute|].
  apply (findBestSymbol_synonym ["valve"; "ball_valves"] "Ball Valve" "valve").
  - replace (normalizeName "Ball Valve") with "ball_valve" by (by vm_compute).
    rewrite !elem_of_cons, elem_of_nil. intros [H|[H|H]]; done.
  - by vm_compute.
  - by left.
Defined.

(** C1, the claim at its input: for the names "valve", "pump" and
    "sensor" the label "ball_valve_A1" resolves to nothing. *)
Lemma findBestSymbol_ball_valve_A1_none :
  findBestSymbol ["valve"; "pump"; "sensor"] "ball_valve_A1" = None.
Proof. by vm_compute. Qed.

(** C1, as the code has it: with the names "valve", "pump" and "sensor"
    the label "ball_valve_A1" normalizes to "ball_valve_a1", which is no
    catalog name and no key of the synonym map; the best score, that of
    "valve", is below 0.4, and nothing is returned.  The label
    "ball_valve" is a synonym key and resolves to "valve". *)
Theorem findBestSymbol_ball_valve :
  let names := ["valve"; "pump"; "sensor"] in
  normalizeName "ball_valve_A1" = "ball_valve_a1" /\
  ("ball_valve_a1" ∉ names) /\
  synonym_of "ball_valve_a1" = None /\
  (symbol <$> bestScored names "ball_valve_a1") = Some "valve" /\
  (forall best, bestScored names "ball_valve_a1" = Some best -> (score best <? 0.4)%float = true) /\
  findBestSymbol names "ball_valve_A1" = None /\
  findBestSymbol names "ball_valve" = Some "valve".
Proof.
  cbv zeta. split; [by vm_compute|]. split.
  { rewrite !elem_of_cons, elem_of_nil. intros [H|[H|[H|H]]]; done. }
  split; [by vm_compute|]. split; [by vm_compute|]. split.
  { intros best. vm_compute. intros [= <-]. done. }
  split; by vm_compute.
Qed.

(** ** The order of binary64 numbers *)

Section FloatOrder.
Local Open Scope Z_scope.

Lemma digits2_pos_bounds (m : positive) :
  2 ^ (Zpos (digits2_pos m) - 1) <= Zpos m < 2 ^ Zpos (digits2_pos m).
Proof.
  induction m as [m IH|m IH|]; simpl digits2_pos; rewrite ?Pos2Z.inj_succ.
  - replace (Z.succ (Zpos (digits2_pos m)) - 1) with (Z.succ (Zpos (digits2_pos m) - 1)) by lia.
    rewrite !Z.pow_succ_r by lia. lia.
  - replace (Z.succ (Zpos (digits2_pos m)) - 1) with (Z.succ (Zpos (digits2_pos m) - 1)) by lia.
    rewrite !Z.pow_succ_r by lia. lia.
  - simpl. lia.
Qed.

(** A canonical mantissa has at most 53 digits, and exactly 53 above the
    least exponent. *)
Lemma canonical_bounds (m : positive) (e : Z) :
  canonical_mantissa prec emax m e = true ->
  -1074 <= e /\ Zpos m < 2 ^ 53 /\ (2 ^ 52 <= Zpos m \/ e = -1074).
Proof.
  unfold canonical_mantissa, fexp, SpecFloat.emin, prec, emax.
  intros H. apply Z.eqb_eq in H.
  pose proof (digits2_pos_bounds m) as [Hlo Hhi].
  set (d := Zpos (digits2_pos m)) in *.
  assert (d <= 53) as Hd by lia.
  split; [lia|]. split.
  - apply Z.lt_le_trans with (1 := Hhi). apply Z.pow_le_mono_r; lia.
  - destruct (Z.eq_dec e (-1074)) as [|Hne]; [right; assumption|left].
    assert (d = 53) as Hd' by lia. rewrite Hd' in Hlo. exact Hlo.
Qed.

(** The place of a number on the line of the multiples of [2 ^ -1074]:
    every finite binary64 number is such a multiple, and the infinities
    stand beyond the largest of them. *)
Definition ord (f : spec_float) : Z :=
  match f with
  | S754_zero _ | S754_nan => 0
  | S754_infinity s => cond_Zopp s (2 ^ 2098)
  | S754_finite s m e => cond_Zopp s (Zpos m * 2 ^ (e + 1074))
  end.

Definition is_number (f : spec_float) : Prop :=
  f <> S754_nan /\ valid_binary f = true.

Lemma pow2_pos (n : Z) : 0 <= n -> 0 < 2 ^ n.
Proof. intros. apply Z.pow_pos_nonneg; lia. Qed.

Lemma finite_ord_bounds (m : positive) (e : Z) :
  bounded prec emax m e = true ->
  0 < Zpos m * 2 ^ (e + 1074) < 2 ^ 2098.
Proof.
  unfold bounded. intros H. apply andb_prop in H as [Hc He].
  apply canonical_bounds in Hc as (Hlo & Hm & _).
  apply Z.leb_le in He. unfold prec, emax in He.
  pose proof (pow2_pos (e + 1074) ltac:(lia)) as HP.
  split; [lia|].
  assert (2 ^ (e + 1074) <= 2 ^ 2045) as Hle by (apply Z.pow_le_mono_r; lia).
  replace (2 ^ 2098) with (2 ^ 53 * 2 ^ 2045) by (rewrite <- Z.pow_add_r by lia; reflexivity).
  apply Z.lt_le_trans with (2 ^ 53 * 2 ^ (e + 1074)).
  - apply Z.mul_lt_mono_pos_r; assumption.
  - apply Z.mul_le_mono_nonneg_l; [lia|assumption].
Qed.

Lemma scaled_lt (a b P Q T : Z) :
  0 < P -> 0 < Q -> 0 < T -> a < T * 2 -> T <= b ->
  a * P < b * (Q * 2 * P).
Proof.
  intros HP HQ HT Ha Hb.
  apply Z.lt_le_trans with (T * 2 * P).
  - apply Z.mul_lt_mono_pos_r; assumption.
  - replace (b * (Q * 2 * P)) with (b * Q * (2 * P)) by ring.
    replace (T * 2 * P) with (T * (2 * P)) by ring.
    apply Z.mul_le_mono_nonneg_r; [lia|].
    apply Z.le_trans with (1 := Hb).
    rewrite <- (Z.mul_1_r b) at 1. apply Z.mul_le_mono_nonneg_l; lia.
Qed.

(** Canonical mantissas compare as their exponents do, and by their
    mantissas at equal exponents. *)
Lemma canonical_compare (m1 m2 : positive) (e1 e2 : Z) :
  canonical_mantissa prec emax m1 e1 = true ->
  canonical_mantissa prec emax m2 e2 = true ->
  (Zpos m1 * 2 ^ (e1 + 1074) ?= Zpos m2 * 2 ^ (e2 + 1074)) =
  match e1 ?= e2 with
  | Lt => Lt
  | Gt => Gt
  | Eq => Pos.compare_cont Eq m1 m2
  end.
Proof.
  intros H1 H2.
  apply canonical_bounds in H1 as (Hlo1 & Hm1 & Hn1).
  apply canonical_bounds in H2 as (Hlo2 & Hm2 & Hn2).
  assert (forall ma mb ea eb, -1074 <= ea -> ea < eb ->
            Zpos ma < 2 ^ 53 -> 2 ^ 52 <= Zpos mb ->
            Zpos ma * 2 ^ (ea + 1074) < Zpos mb * 2 ^ (eb + 1074)) as Hlt.
  { intros ma mb ea eb Hea Hlt Hma Hmb.
    replace (eb + 1074) with ((eb - ea - 1) + 1 + (ea + 1074)) by lia.
    rewrite (Z.pow_add_r 2 (eb - ea - 1 + 1) (ea + 1074)) by lia.
    rewrite (Z.pow_add_r 2 (eb - ea - 1) 1) by lia.
    change (2 ^ 1) with 2.
    apply scaled_lt with (T := 2 ^ 52); try assumption.
    - apply pow2_pos; lia.
    - apply pow2_pos; lia.
    - apply pow2_pos; lia. }
  destruct (Z.compare_spec e1 e2) as [->|He|He].
  - pose proof (pow2_pos (e2 + 1074) ltac:(lia)) as HP.
    change (Pos.compare_cont Eq m1 m2) with (Pos.compare m1 m2).
    destruct (Pos.compare_spec m1 m2) as [->|Hm|Hm].
    + apply Z.compare_refl.
    + apply Z.compare_lt_iff. apply Z.mul_lt_mono_pos_r; lia.
    + apply Z.compare_gt_iff. apply Z.mul_lt_mono_pos_r; lia.
  - apply Z.compare_lt_iff. apply Hlt; try lia.
  - apply Z.compare_gt_iff. apply Hlt; try lia.
Qed.

Ltac by_order :=
  f_equal; symmetry;
  first [ apply Z.compare_eq_iff; lia
        | apply Z.compare_lt_iff; lia
        | apply Z.compare_gt_iff; lia ].

(** On numbers the comparison of the specification is the comparison of
    the places. *)
Lemma SFcompare_ord (f1 f2 : spec_float) :
  is_number f1 -> is_number f2 ->
  SFcompare f1 f2 = Some (ord f1 ?= ord f2).
Proof.
  intros [Hn1 Hv1] [Hn2 Hv2].
  pose proof (pow2_pos 2098 ltac:(lia)) as HI.
  destruct f1 as [s1|s1| |s1 m1 e1]; [| |congruence|];
    destruct f2 as [s2|s2| |s2 m2 e2]; try congruence;
    simpl in Hv1, Hv2;
    try (pose proof (finite_ord_bounds _ _ Hv1) as HM1);
    try (pose proof (finite_ord_bounds _ _ Hv2) as HM2);
    unfold ord; set (INF := 2 ^ 2098) in *;
    try (set (M1 := Zpos m1 * 2 ^ (e1 + 1074)) in * );
    try (set (M2 := Zpos m2 * 2 ^ (e2 + 1074)) in * ).
  all: try clearbody INF.
  - reflexivity.
  - destruct s2; unfold SFcompare, cond_Zopp; by_order.
  - clearbody M2. destruct s2; unfold SFcompare, cond_Zopp; by_order.
  - destruct s1; unfold SFcompare, cond_Zopp; by_order.
  - destruct s1, s2; unfold SFcompare, cond_Zopp; by_order.
  - clearbody M2. destruct s1, s2; unfold SFcompare, cond_Zopp; by_order.
  - clearbody M1. destruct s1; unfold SFcompare, cond_Zopp; by_order.
  - clearbody M1. destruct s1, s2; unfold SFcompare, cond_Zopp; by_order.
  - apply andb_prop in Hv1 as [Hc1 _]. apply andb_prop in Hv2 as [Hc2 _].
    destruct s1, s2; simpl SFcompare; unfold cond_Zopp.
    + rewrite Z.compare_opp. subst M1 M2.
      rewrite (canonical_compare _ _ _ _ Hc2 Hc1).
      rewrite (Z.compare_antisym e1 e2).
      change (Pos.compare_cont Eq m2 m1) with (Pos.compare m2 m1).
      change (Pos.compare_cont Eq m1 m2) with (Pos.compare m1 m2).
      rewrite (Pos.compare_antisym m1 m2).
      destruct (e1 ?= e2); reflexivity.
    + by_order.
    + by_order.
    + subst M1 M2. rewrite (canonical_compare _ _ _ _ Hc1 Hc2). reflexivity.
Qed.

(** *** The sign of a difference *)

Lemma iter_xO_value (d m : positive) :
  Zpos (Pos.iter xO m d) = Zpos m * 2 ^ Zpos d.
Proof.
  induction d as [|d IH] using Pos.peano_ind.
  - simpl. lia.
  - rewrite Pos.iter_succ, Pos2Z.inj_succ, Z.pow_succ_r by lia.
    rewrite Pos2Z.inj_xO, IH. ring.
Qed.

Lemma shl_align_value (m : positive) (e ez : Z) :
  ez <= e -> Zpos (fst (shl_align m e ez)) = Zpos m * 2 ^ (e - ez).
Proof.
  intros He. unfold shl_align.
  destruct (ez - e) as [|d|d] eqn:Hd; simpl fst.
  - replace (e - ez) with 0 by lia. simpl. lia.
  - lia.
  - rewrite iter_xO_value. f_equal. f_equal. lia.
Qed.

Lemma shl_align_exponent (m : positive) (e e' : Z) :
  -1074 <= e -> -1074 <= e' -> -1074 <= snd (shl_align m e e').
Proof. intros. unfold shl_align. destruct (e' - e); simpl; assumption. Qed.

(** One shift to the right takes one digit off a mantissa that is not
    negative, and so do [n] of them take [n]. *)
Lemma shr_1_digits (mrs : shr_record) :
  0 <= shr_m mrs ->
  0 <= shr_m (shr_1 mrs) /\
  Zdigits2 (shr_m (shr_1 mrs)) = Z.max 0 (Zdigits2 (shr_m mrs) - 1).
Proof.
  destruct mrs as [m r s]. simpl shr_m at 1. intros Hm.
  destruct m as [|[p|p|]|p]; cbn [shr_1 shr_m Zdigits2 digits2_pos];
    rewrite ?Pos2Z.inj_succ; lia.
Qed.

Lemma iter_shr_1_digits (n : positive) (mrs : shr_record) :
  0 <= shr_m mrs ->
  0 <= shr_m (SpecFloat.iter_pos shr_1 n mrs) /\
  Zdigits2 (shr_m (SpecFloat.iter_pos shr_1 n mrs)) = Z.max 0 (Zdigits2 (shr_m mrs) - Zpos n).
Proof.
  revert mrs. induction n as [n IH|n IH|]; intros mrs Hm; simpl SpecFloat.iter_pos.
  - destruct (shr_1_digits mrs Hm) as [H0 D0].
    destruct (IH _ H0) as [H1 D1]. destruct (IH _ H1) as [H2 D2].
    split; [assumption|]. rewrite D2, D1, D0. lia.
  - destruct (IH _ Hm) as [H1 D1]. destruct (IH _ H1) as [H2 D2].
    split; [assumption|]. rewrite D2, D1. lia.
  - destruct (shr_1_digits mrs Hm) as [H0 D0]. split; [assumption|]. rewrite D0. lia.
Qed.

Lemma Zdigits2_pos (z : Z) : 0 <= z -> (0 < z <-> 0 < Zdigits2 z).
Proof. destruct z; simpl; lia. Qed.

(** Rounding to the format keeps a positive mantissa positive, at an
    exponent that is no less than the least one. *)
Lemma shr_fexp_positive (m e : Z) (l : location) :
  0 < m -> -1074 <= e ->
  0 < shr_m (fst (shr_fexp prec emax m e l)) /\ -1074 <= snd (shr_fexp prec emax m e l).
Proof.
  intros Hm He. unfold shr_fexp, shr, fexp, SpecFloat.emin, prec, emax.
  assert (shr_m (shr_record_of_loc m l) = m) as Hrec by (destruct l as [|[]]; reflexivity).
  destruct (Z.max (Zdigits2 m + e - 53) (3 - 1024 - 53) - e) as [|n|n] eqn:Hn; simpl fst; simpl snd.
  - rewrite Hrec. split; assumption.
  - destruct (iter_shr_1_digits n (shr_record_of_loc m l)) as [H0 D0]; [rewrite Hrec; lia|].
    rewrite Hrec in D0. split; [|lia].
    apply Zdigits2_pos; [assumption|]. rewrite D0.
    apply (Zdigits2_pos m) in Hm; lia.
  - rewrite Hrec. split; assumption.
Qed.

Lemma round_nearest_even_ge (m : Z) (l : location) : m <= round_nearest_even m l.
Proof. destruct l as [|[]]; simpl; try lia. destruct (Z.even m); lia. Qed.

Definition has_sign (s : bool) (f : spec_float) : Prop :=
  match f with
  | S754_finite s' _ _ | S754_infinity s' => s' = s
  | S754_zero _ | S754_nan => False
  end.

Lemma binary_round_aux_sign (s : bool) (m e : Z) (l : location) :
  0 < m -> -1074 <= e -> has_sign s (binary_round_aux prec emax s m e l).
Proof.
  intros Hm He. unfold binary_round_aux.
  pose proof (shr_fexp_positive m e l Hm He) as [H1 E1].
  destruct (shr_fexp prec emax m e l) as [mrs' e']. simpl in H1, E1.
  pose proof (round_nearest_even_ge (shr_m mrs') (loc_of_shr_record mrs')) as Hr.
  pose proof (shr_fexp_positive (round_nearest_even (shr_m mrs') (loc_of_shr_record mrs'))
                e' loc_Exact ltac:(lia) E1) as [H2 E2].
  destruct (shr_fexp prec emax _ e' loc_Exact) as [mrs'' e'']. simpl in H2, E2.
  destruct (shr_m mrs'') as [|p|p]; try lia.
  destruct (e'' <=? emax - prec); reflexivity.
Qed.

Lemma binary_round_sign (s : bool) (m : positive) (e : Z) :
  -1074 <= e -> has_sign s (binary_round prec emax s m e).
Proof.
  intros He. unfold binary_round.
  pose proof (shl_align_exponent m e (fexp prec emax (Zpos (digits2_pos m) + e)) He) as Hez.
  destruct (shl_align m e _) as [mz ez]. simpl in Hez.
  apply binary_round_aux_sign; [lia|]. apply Hez.
  unfold fexp, SpecFloat.emin, prec, emax. lia.
Qed.

(** The float of a non-zero integer at an exponent of the format has the
    sign of the integer. *)
Lemma binary_normalize_sign (d e : Z) :
  -1074 <= e ->
  match d with
  | 0 => binary_normalize prec emax d e false = S754_zero false
  | Zpos _ => has_sign false (binary_normalize prec emax d e false)
  | Zneg _ => has_sign true (binary_normalize prec emax d e false)
  end.
Proof. intros He. destruct d; simpl; [reflexivity| |]; apply binary_round_sign; assumption. Qed.

Lemma zero_ltb_sign (s : bool) (f : spec_float) :
  has_sign s f -> SFltb (S754_zero false) f = negb s.
Proof. destruct f as [| | |s' m e]; simpl; try tauto; intros ->; destruct s; reflexivity. Qed.

Lemma ord_aligned (s : bool) (m : positive) (e ez : Z) :
  -1074 <= ez -> ez <= e ->
  cond_Zopp s (Zpos m * 2 ^ (e + 1074)) =
  cond_Zopp s (Zpos (fst (shl_align m e ez))) * 2 ^ (ez + 1074).
Proof.
  intros Hez He. rewrite shl_align_value by assumption.
  replace (e + 1074) with ((e - ez) + (ez + 1074)) by lia.
  rewrite Z.pow_add_r by lia. destruct s; unfold cond_Zopp; ring.
Qed.

(** Zero is below the difference [f2 - f1] of two numbers exactly when
    [f1] is below [f2]: a difference of the format that is not zero does
    not round to zero. *)
Lemma SFsub_positive (f1 f2 : spec_float) :
  is_number f1 -> is_number f2 ->
  SFltb (S754_zero false) (SFsub prec emax f2 f1) = (ord f1 <? ord f2).
Proof.
  intros [Hn1 Hv1] [Hn2 Hv2].
  pose proof (pow2_pos 2098 ltac:(lia)) as HI.
  destruct f1 as [s1|s1| |s1 m1 e1]; [| |congruence|];
    destruct f2 as [s2|s2| |s2 m2 e2]; try congruence;
    simpl in Hv1, Hv2;
    try (pose proof (finite_ord_bounds _ _ Hv1) as HM1);
    try (pose proof (finite_ord_bounds _ _ Hv2) as HM2);
    unfold ord; set (INF := 2 ^ 2098) in *; clearbody INF.
  - destruct s1, s2; reflexivity.
  - destruct s1, s2; unfold SFsub, SFltb, SFcompare, cond_Zopp; symmetry;
      first [apply Z.ltb_lt; lia | apply Z.ltb_ge; lia].
  - set (M2 := Zpos m2 * 2 ^ (e2 + 1074)) in *. clearbody M2.
    destruct s1, s2; unfold SFsub, SFltb, SFcompare, cond_Zopp; symmetry;
      first [apply Z.ltb_lt; lia | apply Z.ltb_ge; lia].
  - destruct s1, s2; unfold SFsub, SFltb, SFcompare, cond_Zopp, negb; symmetry;
      first [apply Z.ltb_lt; lia | apply Z.ltb_ge; lia].
  - destruct s1, s2; unfold SFsub, SFltb, SFcompare, cond_Zopp, negb; symmetry;
      first [apply Z.ltb_lt; lia | apply Z.ltb_ge; lia].
  - set (M2 := Zpos m2 * 2 ^ (e2 + 1074)) in *. clearbody M2.
    destruct s1, s2; unfold SFsub, SFltb, SFcompare, cond_Zopp, negb; symmetry;
      first [apply Z.ltb_lt; lia | apply Z.ltb_ge; lia].
  - set (M1 := Zpos m1 * 2 ^ (e1 + 1074)) in *. clearbody M1.
    destruct s1, s2; unfold SFsub, SFltb, SFcompare, cond_Zopp, negb; symmetry;
      first [apply Z.ltb_lt; lia | apply Z.ltb_ge; lia].
  - set (M1 := Zpos m1 * 2 ^ (e1 + 1074)) in *. clearbody M1.
    destruct s1, s2; unfold SFsub, SFltb, SFcompare, cond_Zopp, negb; symmetry;
      first [apply Z.ltb_lt; lia | apply Z.ltb_ge; lia].
  - apply andb_prop in Hv1 as [Hc1 _]. apply andb_prop in Hv2 as [Hc2 _].
    apply canonical_bounds in Hc1 as (Hlo1 & _). apply canonical_bounds in Hc2 as (Hlo2 & _).
    unfold SFsub.
    set (ez := Z.min e2 e1).
    rewrite (ord_aligned s1 m1 e1 ez), (ord_aligned s2 m2 e2 ez) by lia.
    set (d1 := cond_Zopp s1 (Zpos (fst (shl_align m1 e1 ez)))).
    set (d2 := cond_Zopp s2 (Zpos (fst (shl_align m2 e2 ez)))).
    pose proof (pow2_pos (ez + 1074) ltac:(lia)) as HK.
    set (K := 2 ^ (ez + 1074)) in *. clearbody K d1 d2.
    pose proof (binary_normalize_sign (d2 - d1) ez ltac:(lia)) as Hsign.
    destruct (d2 - d1) as [|p|p] eqn:Hd.
    + rewrite Hsign. symmetry. apply Z.ltb_ge. assert (d2 = d1) as -> by lia. lia.
    + rewrite (zero_ltb_sign _ _ Hsign). symmetry. apply Z.ltb_lt.
      apply Z.mul_lt_mono_pos_r; lia.
    + rewrite (zero_ltb_sign _ _ Hsign). symmetry. apply Z.ltb_ge.
      apply Z.mul_le_mono_nonneg_r; lia.
Qed.

(** *** The same on the floats of the kernel *)

Definition place (f : float) : Z := ord (Prim2SF f).

Lemma is_nan_number (f : float) : is_nan f = false -> is_number (Prim2SF f).
Proof.
  intros H. split; [|apply Prim2SF_valid].
  intros Hnan. unfold is_nan in H. rewrite FloatAxioms.eqb_spec, Hnan in H. discriminate.
Qed.

Lemma ltb_place (a b : float) :
  is_nan a = false -> is_nan b = false -> (a <? b)%float = (place a <? place b).
Proof.
  intros Ha Hb. rewrite FloatAxioms.ltb_spec. unfold SFltb, place.
  rewrite (SFcompare_ord _ _ (is_nan_number a Ha) (is_nan_number b Hb)).
  unfold Z.ltb. destruct (_ ?= _); reflexivity.
Qed.

Lemma leb_place (a b : float) :
  is_nan a = false -> is_nan b = false -> (a <=? b)%float = (place a <=? place b).
Proof.
  intros Ha Hb. rewrite FloatAxioms.leb_spec. unfold SFleb, place.
  rewrite (SFcompare_ord _ _ (is_nan_number a Ha) (is_nan_number b Hb)).
  unfold Z.leb. destruct (_ ?= _); reflexivity.
Qed.

Lemma sub_positive_place (a b : float) :
  is_nan a = false -> is_nan b = false -> (0 <? b - a)%float = (place a <? place b).
Proof.
  intros Ha Hb. rewrite FloatAxioms.ltb_spec, FloatAxioms.sub_spec.
  change (Prim2SF 0) with (S754_zero false).
  apply SFsub_positive; apply is_nan_number; assumption.
Qed.

End FloatOrder.

(** ** The scoring step of findBestSymbol *)

Lemma scoreOf_number normalized symbol :
  is_nan (score (scoreOf normalized symbol)) = false.
Proof.
  unfold scoreOf. simpl.
  destruct (is_nan (calculateSimilarity normalized symbol)) eqn:Hnan; [reflexivity|exact Hnan].
Qed.

(** The first element of the sorted scores is one of the scores, no score
    is above it, and every score before it in the list is below it. *)
Lemma sort_head (l : list scored) :
  Forall (fun s => is_nan (score s) = false) l -> l <> [] ->
  exists i best,
    head (sort byScoreDesc l) = Some best /\ l !! i = Some best /\
    (forall j s, l !! j = Some s -> (place (score s) <= place (score best))%Z) /\
    (forall j s, j < i -> l !! j = Some s -> (place (score s) < place (score best))%Z).
Proof.
  induction 1 as [|a r Ha Hr IH]; [done|]. intros _.
  destruct r as [|a' r'].
  - exists 0, a. split; [done|]. split; [done|]. split.
    + intros [|j] s; [|done]. intros [= <-]. lia.
    + intros j s Hj. lia.
  - destruct IH as (i & best & Hhead & Hi & Hall & Hbefore); [done|].
    assert (is_nan (score best) = false) as Hbest
      by (by apply (Forall_lookup_1 _ _ _ _ Hr Hi)).
    change (sort byScoreDesc (a :: a' :: r'))
      with (sortInsert byScoreDesc a (sort byScoreDesc (a' :: r'))).
    destruct (sort byScoreDesc (a' :: r')) as [|b rest]; [done|].
    injection Hhead as ->. simpl sortInsert. unfold byScoreDesc at 1.
    rewrite (sub_positive_place _ _ Ha Hbest).
    destruct (Z.ltb_spec (place (score a)) (place (score best))) as [Hlt|Hge].
    + exists (S i), best. split; [done|]. split; [done|]. split.
      * intros [|j] s; [intros [= <-]; lia|]. apply Hall.
      * intros [|j] s Hj; [intros [= <-]; lia|]. apply Hbefore. lia.
    + exists 0, a. split; [done|]. split; [done|]. split.
      * intros [|j] s; [intros [= <-]; lia|]. intros Hs.
        pose proof (Hall j s Hs). lia.
      * intros j s Hj. lia.
Qed.

(** A label gets to the scoring step when the catalog is not empty, its
    normalized form is not empty and has at most 500 characters, is no
    catalog name, and has no synonym among the catalog names. *)
Definition reachesScoring (SYMBOL_NAMES : list string) (nodeName : string) : Prop :=
  SYMBOL_NAMES <> [] /\
  normalizeName nodeName <> "" /\
  String.length (normalizeName nodeName) <= 500 /\
  (normalizeName nodeName ∉ SYMBOL_NAMES) /\
  (forall synonym, synonym_of (normalizeName nodeName) = Some synonym -> synonym ∉ SYMBOL_NAMES).

(** The top-scoring name: no name scores higher, and the names before it
    in the catalog score lower. *)
Definition topScoring (normalized : string) (SYMBOL_NAMES : list string) (top : string) : Prop :=
  exists i, SYMBOL_NAMES !! i = Some top /\
    (forall j s, SYMBOL_NAMES !! j = Some s ->
       (score (scoreOf normalized s) <=? score (scoreOf normalized top))%float = true) /\
    (forall j s, j < i -> SYMBOL_NAMES !! j = Some s ->
       (score (scoreOf normalized s) <? score (scoreOf normalized top))%float = true).

Lemma findBestSymbol_scoring (SYMBOL_NAMES : list string) (nodeName : string) :
  reachesScoring SYMBOL_NAMES nodeName ->
  findBestSymbol SYMBOL_NAMES nodeName =
  acceptBest (bestScored SYMBOL_NAMES (normalizeName nodeName)).
Proof.
  intros (Hnames & Hne & Hlen & Hexact & Hsyn). unfold findBestSymbol.
  destruct SYMBOL_NAMES as [|n names]; [done|]. simpl length. simpl Nat.eqb. cbv iota.
  rewrite bool_decide_eq_false_2 by done.
  destruct (Nat.ltb_spec 500 (String.length (normalizeName nodeName))); [lia|].
  rewrite bool_decide_eq_false_2 by done.
  destruct (synonym_of (normalizeName nodeName)) as [synonym|] eqn:Hs; [|done].
  rewrite bool_decide_eq_false_2; [done|]. by apply Hsyn.
Qed.

(** C6: for a label that gets to the scoring step there is a top-scoring
    catalog name; it is returned when its score is 0.4 or more, nothing is
    returned otherwise, and otherwise is when the score is below 0.4. *)
Theorem findBestSymbol_threshold (SYMBOL_NAMES : list string) (nodeName : string) :
  reachesScoring SYMBOL_NAMES nodeName ->
  exists top,
    topScoring (normalizeName nodeName) SYMBOL_NAMES top /\
    findBestSymbol SYMBOL_NAMES nodeName =
      (if (0.4 <=? score (scoreOf (normalizeName nodeName) top))%float then Some top else None) /\
    (0.4 <=? score (scoreOf (normalizeName nodeName) top))%float =
      negb (score (scoreOf (normalizeName nodeName) top) <? 0.4)%float.
Proof.
  intros Hreach. rewrite (findBestSymbol_scoring _ _ Hreach).
  destruct Hreach as (Hnames & _). set (normalized := normalizeName nodeName).
  unfold bestScored.
  destruct (sort_head (map (scoreOf normalized) SYMBOL_NAMES))
    as (i & best & -> & Hi & Hall & Hbefore).
  { apply Forall_fmap, Forall_forall. intros s _. apply scoreOf_number. }
  { by destruct SYMBOL_NAMES. }
  change (map (scoreOf normalized) SYMBOL_NAMES) with (scoreOf normalized <$> SYMBOL_NAMES) in *.
  rewrite list_lookup_fmap in Hi.
  destruct (SYMBOL_NAMES !! i) as [top|] eqn:Htop; [|done]. injection Hi as <-.
  exists top. split; [|split].
  - exists i. split; [done|]. split.
    + intros j s Hs. rewrite leb_place by apply scoreOf_number. apply Z.leb_le.
      apply (Hall j). by rewrite list_lookup_fmap, Hs.
    + intros j s Hj Hs. rewrite ltb_place by apply scoreOf_number. apply Z.ltb_lt.
      apply (Hbefore j); [done|]. by rewrite list_lookup_fmap, Hs.
  - done.
  - rewrite leb_place, ltb_place by (apply scoreOf_number || done).
    rewrite Z.leb_antisym. done.
Qed.

(** The label "Gas Compressor" scores exactly 0.4 against the name "gas",
    which is returned; "Gas Compressors" scores below 0.4, and nothing is
    returned. *)
Lemma findBestSymbol_threshold_witness :
  let names := ["pump"; "gas"] in
  score (scoreOf "gas_compressor" "gas") = 0.4%float /\
  findBestSymbol names "Gas Compressor" = Some "gas" /\
  (score (scoreOf "gas_compressors" "gas") <? 0.4)%float = true /\
  findBestSymbol names "Gas Compressors" = None /\
  exists top,
    topScoring (normalizeName "Gas Compressor") names top /\
    findBestSymbol names "Gas Compressor" =
      (if (0.4 <=? score (scoreOf (normalizeName "Gas Compressor") top))%float
       then Some top else None) /\
    (0.4 <=? score (scoreOf (normalizeName "Gas Compressor") top))%float =
      negb (score (scoreOf (normalizeName "Gas Compressor") top) <? 0.4)%float.
Proof.
  intros names.
  split; [by vm_compute|]. split; [by vm_compute|].
  split; [by vm_compute|]. split; [by vm_compute|].
  apply (findBestSymbol_threshold names "Gas Compressor").
  replace (normalizeName "Gas Compressor") with "gas_compressor" by (by vm_compute).
  unfold reachesScoring. split; [done|]. split; [done|]. split; [simpl; lia|]. split.
  - unfold names. rewrite !elem_of_cons, elem_of_nil. intros [H|[H|H]]; done.
  - intros synonym. by vm_compute.
Defined.

(** ** loadSymbols *)

(** A well-formed answer of [/api/symbols]. *)
Definition goodPayload : fetched :=
  Payload (JObj [("success", JBool true);
                 ("symbols", JArr [JObj [("name", JStr "Ball Valve"); ("category", JStr "valves")];
                                   JStr "pump"])]).

Lemma loadSymbols_good :
  loadSymbols_resume goodPayload catalog0 =
  Catalog (JArr [JObj [("name", JStr "Ball Valve"); ("category", JStr "valves")]; JStr "pump"])
          ["ball_valve"; "pump"] true.
Proof. by vm_compute. Qed.

(** C3, the claim at its input: two calls, the second begun before the
    answer to the first has come, send two requests. *)
Lemma loadSymbols_twice_two_requests :
  sent (state (run (Running page0 0) [Call; Call; Settle goodPayload; Settle goodPayload])) = 2.
Proof. by vm_compute. Qed.

(** The answers on which the guarded block of [loadSymbols] is not
    entered: no answer, an answer that is not [ok], a body that is no
    JSON, a body whose [success] or [symbols] is falsy (or is [null], on
    which reading [success] throws). *)
Definition payloadAccepted (data : json) : bool :=
  match getProp data "success", getProp data "symbols" with
  | Some success, Some symbols => truthy success && truthy symbols
  | _, _ => false
  end.

Definition rejected (r : fetched) : bool :=
  match r with
  | Payload data => negb (payloadAccepted data)
  | _ => true
  end.

(** On a rejected answer the catalog is left as it was, the request has
    been sent, and the next call sends another; and the flag is set by
    no answer but an accepted payload whose names could all be read. *)
Lemma loadSymbols_rejected (net : nat -> fetched) (p : page) :
  SYMBOLS_LOADED (cat p) = false ->
  rejected (net (sent p)) = true ->
  cat (loadSymbols net p) = cat p /\
  sent (loadSymbols net p) = S (sent p) /\
  sent (loadSymbols net (loadSymbols net p)) = S (S (sent p)).
Proof.
  intros Hl Hr. unfold loadSymbols at 1 2 4, loadSymbols_fetches. rewrite Hl. simpl.
  assert (loadSymbols_resume (net (sent p)) (cat p) = cat p) as ->.
  { destruct (net (sent p)) as [| | |data]; try done. simpl in *.
    unfold payloadAccepted in Hr.
    destruct (getProp data "success"), (getProp data "symbols"); try done.
    by destruct (truthy _ && truthy _). }
  split; [done|]. split; [done|].
  unfold loadSymbols, loadSymbols_fetches. simpl. by rewrite Hl.
Qed.

Lemma loadSymbols_sets_flag (r : fetched) (c : catalog) :
  SYMBOLS_LOADED c = false ->
  SYMBOLS_LOADED (loadSymbols_resume r c) = true ->
  exists data symbols names,
    r = Payload data /\ payloadAccepted data = true /\
    getProp data "symbols" = Some (Some symbols) /\
    symbolNames symbols = Some names /\
    loadSymbols_resume r c = Catalog symbols names true.
Proof.
  intros Hl Hr. destruct r as [| | |data]; simpl in *; try congruence.
  unfold payloadAccepted.
  destruct (getProp data "success") as [success|] eqn:Hsuccess; [|congruence].
  destruct (getProp data "symbols") as [symbols|] eqn:Hsymbols; [|congruence].
  destruct (truthy success && truthy symbols) eqn:Ht; [|congruence].
  destruct symbols as [symbols|]; [|by rewrite andb_false_r in Ht].
  simpl in *. destruct (symbolNames symbols) as [names|] eqn:Hn; simpl in *; [|congruence].
  exists data, symbols, names. by rewrite Hsuccess, Hsymbols.
Qed.

(** C3, as the code has it: the only guard is [SYMBOLS_LOADED], which is
    set when a load has been completed.  While it is unset, each of two
    calls that begin before any answer has come sends its own request.  A
    second call that begins after the answer to the first sends none, so
    that there is one request in all, when that answer has set the flag;
    it sends its own, two in all, when the answer has left the flag unset;
    and the flag is set by an accepted payload whose names can all be
    read, and by no other answer: not by a request without answer, an
    answer that is not [ok], a body that is no JSON, or a payload that is
    not accepted. *)
Theorem loadSymbols_twice (s : running) :
  SYMBOLS_LOADED (cat (state s)) = false ->
  sent (state (run s [Call; Call])) = sent (state s) + 2 /\
  (forall r, waiting s = 0 ->
     SYMBOLS_LOADED (loadSymbols_resume r (cat (state s))) = true ->
     sent (state (run s [Call; Settle r; Call])) = sent (state s) + 1) /\
  (forall r, waiting s = 0 ->
     SYMBOLS_LOADED (loadSymbols_resume r (cat (state s))) = false ->
     sent (state (run s [Call; Settle r; Call])) = sent (state s) + 2) /\
  (forall r,
     SYMBOLS_LOADED (loadSymbols_resume r (cat (state s))) = true <->
     exists data symbols names,
       r = Payload data /\ payloadAccepted data = true /\
       getProp data "symbols" = Some (Some symbols) /\
       symbolNames symbols = Some names) /\
  (forall r, rejected r = true ->
     SYMBOLS_LOADED (loadSymbols_resume r (cat (state s))) = false).
Proof.
  intros Hl. destruct s as [[c n] w]. simpl in *. split; [|split; [|split; [|split]]].
  - unfold loadSymbols_fetches. simpl. rewrite Hl. simpl. rewrite Hl. simpl. lia.
  - intros r -> Hr. unfold loadSymbols_fetches. simpl. rewrite Hl. simpl.
    rewrite Hr. simpl. lia.
  - intros r -> Hr. unfold loadSymbols_fetches. simpl. rewrite Hl. simpl.
    rewrite Hr. simpl. lia.
  - intros r. split.
    + intros Hr. destruct (loadSymbols_sets_flag r c Hl Hr)
        as (data & symbols & names & -> & Hacc & Hsymbols & Hnames & _).
      by exists data, symbols, names.
    + intros (data & symbols & names & -> & Hacc & Hsymbols & Hnames).
      simpl. unfold payloadAccepted in Hacc. rewrite Hsymbols in *.
      destruct (getProp data "success") as [success|]; [|done].
      rewrite Hacc. simpl. by rewrite Hnames.
  - intros r Hr. destruct r as [| | |data]; try done. simpl in *.
    unfold payloadAccepted in Hr.
    destruct (getProp data "success"), (getProp data "symbols"); try done.
    by destruct (truthy _ && truthy _).
Qed.

(** From the empty page: two calls side by side send two requests; a
    call after a load sends none; a call after a request without answer
    sends another. *)
Lemma loadSymbols_twice_witness :
  sent (state (run (Running page0 0) [Call; Call])) = 2 /\
  sent (state (run (Running page0 0) [Call; Settle goodPayload; Call])) = 1 /\
  sent (state (run (Running page0 0) [Call; Settle NetworkError; Call])) = 2.
Proof.
  destruct (loadSymbols_twice (Running page0 0) eq_refl) as (H2 & H1 & H0 & _ & Hrej).
  split; [exact H2|]. split.
  - apply (H1 goodPayload); [reflexivity|by vm_compute].
  - apply (H0 NetworkError); [reflexivity|]. by apply Hrej.
Defined.

(** C8, at a payload that has a truthy [success] and, for [symbols], a
    string and no list: [ALL_SYMBOLS] is assigned before [map] throws, and
    the catalog is left with that entry, no names and the flag unset. *)
Theorem loadSymbols_partial_state :
  let data := JObj [("success", JBool true); ("symbols", JStr "valve")] in
  loadSymbols_resume (Payload data) catalog0 = Catalog (JStr "valve") [] false /\
  cat (loadSymbols (fun _ => Payload data) page0) <> catalog0.
Proof. split; by vm_compute. Qed.

(** ** initGraphViewer *)

(** What the loop over [nodes] reads of an entry: its id, when it is a
    string or an object with a truthy id, and its own position. *)
Definition inputId (n : nodeInput) : option string :=
  match n with
  | NodeString id => Some id
  | NodeObject id _ _ => nonEmpty id
  | NodeNull | NodeOther => None
  end.

Definition inputPosition (n : nodeInput) : option position :=
  match n with
  | NodeObject _ _ pos => pos
  | _ => None
  end.

(** The id and the position of the element of an entry: the position of
    the entry, else the stored one. *)
Definition idAndPosition (positionsMap : gmap string position) (n : nodeInput)
  : option (string * option positionValue) :=
  id ← inputId n;
  Some (id, match inputPosition n with
            | Some pos => Some (Coordinates pos)
            | None => readPosition positionsMap id
            end).

Lemma nodeElementOf_spec net positionsMap n p :
  n <> NodeNull ->
  exists el p',
    nodeElementOf net positionsMap n p = (Some el, p') /\
    ((fun el => (data_id el, el_position el)) <$> el) = idAndPosition positionsMap n.
Proof.
  intros Hn. unfold nodeElementOf, idAndPosition.
  destruct n as [id|id imageUrl pos| |]; simpl; [| | done |].
  - destruct (getNodeStyle net id p) as [imageUrl p']. by eexists _, _.
  - destruct (nonEmpty id) as [id'|]; simpl; [|by eexists _, _].
    destruct (nonEmpty imageUrl) as [url|]; [by eexists _, _|].
    destruct (getNodeStyle net id' p) as [imageUrl' p']. by eexists _, _.
  - by eexists _, _.
Qed.

(** Without a [null] among them the entries give their elements, in
    order, whatever the catalog and the network are. *)
Lemma nodeElements_spec net positionsMap nodes p :
  NodeNull ∉ nodes ->
  exists els p',
    nodeElements net positionsMap nodes p = (Some els, p') /\
    ((fun el => (data_id el, el_position el)) <$> els) = omap (idAndPosition positionsMap) nodes.
Proof.
  revert p. induction nodes as [|n nodes IH]; intros p Hnull; simpl.
  - by eexists _, _.
  - apply not_elem_of_cons in Hnull as [Hn Hnull].
    destruct (nodeElementOf_spec net positionsMap n p) as (el & p1 & -> & Hel); [done|].
    destruct (IH p1 Hnull) as (els & p2 & -> & Hels).
    eexists _, _. split; [done|]. simpl.
    rewrite fmap_app, Hels. rewrite <- Hel. by destruct el.
Qed.

Lemma edgeElementOf_spec idx edge :
  edge <> EdgeNull -> is_Some (edgeElementOf idx edge).
Proof.
  intros He. unfold edgeElementOf. destruct edge; simpl; try done;
    repeat (match goal with |- context [nonEmpty ?v] => destruct (nonEmpty v) end); by eexists.
Qed.

Lemma edgeElements_spec edges :
  EdgeNull ∉ edges -> is_Some (edgeElements edges).
Proof.
  intros Hnull. unfold edgeElements.
  assert (is_Some (mapM (fun ie : nat * edgeInput => edgeElementOf ie.1 ie.2) (imap pair edges))) as [l ->];
    [|by eexists].
  apply mapM_is_Some. apply Forall_forall. intros [i e] Hin.
  apply edgeElementOf_spec. simpl. intros ->. apply Hnull.
  apply list_elem_of_lookup in Hin as [k Hk].
  rewrite list_lookup_imap in Hk. apply list_elem_of_lookup. exists k.
  destruct (edges !! k) eqn:Hek; simpl in Hk; congruence.
Qed.

(** With the container in the page and no [null] among the entries, the
    call returns a graph; its nodes are the elements of the entries, its
    layout is chosen by the stored positions alone, and its edges are
    among the ones read. *)
Lemma initGraphViewer_builds net saved nodes edges p :
  NodeNull ∉ nodes -> EdgeNull ∉ edges ->
  exists nodeEls edgeEls p',
    initGraphViewer net true saved nodes edges p =
      (Built (cytoscape nodeEls edgeEls
                (if Nat.ltb 0 (size (loadNodePositions saved)) then Preset else Dagre)), p') /\
    edgeElements edges = Some edgeEls /\
    ((fun el => (data_id el, el_position el)) <$> nodeEls) =
      omap (idAndPosition (loadNodePositions saved)) nodes.
Proof.
  intros Hn He. unfold initGraphViewer. simpl negb. cbv iota.
  destruct (nodeElements_spec net (loadNodePositions saved) nodes (ensureSymbolsLoaded net p) Hn)
    as (els & p' & -> & Hels).
  destruct (edgeElements_spec edges He) as [edgeEls Hedges]. rewrite Hedges.
  by eexists _, _, _.
Qed.

Lemma nodeElements_inv net positionsMap nodes p els p' :
  nodeElements net positionsMap nodes p = (Some els, p') ->
  ((fun el => (data_id el, el_position el)) <$> els) = omap (idAndPosition positionsMap) nodes.
Proof.
  revert p els p'. induction nodes as [|n nodes IH]; intros p els p'; simpl.
  - by intros [= <- _].
  - assert (n = NodeNull \/ n <> NodeNull) as [->|Hn] by (destruct n; auto); [done|].
    destruct (nodeElementOf_spec net positionsMap n p Hn) as (el & p1 & -> & Hel).
    destruct (nodeElements net positionsMap nodes p1) as [[els1|] p2] eqn:Hrest; simpl; [|done].
    intros [= <- _]. rewrite fmap_app, (IH _ _ _ Hrest), <- Hel. by destruct el.
Qed.

Lemma initGraphViewer_inv net saved nodes edges p g p' :
  initGraphViewer net true saved nodes edges p = (Built g, p') ->
  exists nodeEls edgeEls,
    g = cytoscape nodeEls edgeEls
          (if Nat.ltb 0 (size (loadNodePositions saved)) then Preset else Dagre) /\
    edgeElements edges = Some edgeEls /\
    ((fun el => (data_id el, el_position el)) <$> nodeEls) =
      omap (idAndPosition (loadNodePositions saved)) nodes.
Proof.
  unfold initGraphViewer. simpl negb. cbv iota.
  destruct (nodeElements _ _ _ _) as [[nodeEls|] p1] eqn:Hnodes; [|done].
  destruct (edgeElements edges) as [edgeEls|]; [|done].
  intros [= <- _]. exists nodeEls, edgeEls. split; [done|]. split; [done|].
  by eapply nodeElements_inv.
Qed.

Lemma idAndPosition_ids positionsMap (nodes : list nodeInput) :
  (fst <$> omap (idAndPosition positionsMap) nodes) = omap inputId nodes.
Proof.
  induction nodes as [|n nodes IH]; [done|]. simpl. unfold idAndPosition at 1.
  destruct (inputId n); simpl; [f_equal|]; exact IH.
Qed.

Lemma element_ids positionsMap (nodes : list nodeInput) (nodeEls : list nodeElement) :
  ((fun el => (data_id el, el_position el)) <$> nodeEls) = omap (idAndPosition positionsMap) nodes ->
  (data_id <$> nodeEls) = omap inputId nodes.
Proof.
  intros H. rewrite <- (idAndPosition_ids positionsMap), <- H, <- list_fmap_compose. done.
Qed.

(** C2: with the container in the page and no [null] among the entries,
    [initGraphViewer] returns a graph and throws nothing, the ids of its
    nodes are the ids of the entries, and no edge read from [edges] whose
    source or target is not among those ids is in the graph; given the
    nodes A and B and the one edge from A to C, the graph has no edge. *)
Theorem initGraphViewer_edge_filtering (net : nat -> fetched) (saved : storage) (p : page) :
  (forall nodes edges,
     NodeNull ∉ nodes -> EdgeNull ∉ edges ->
     exists g edgeEls,
       (initGraphViewer net true saved nodes edges p).1 = Built g /\
       (data_id <$> graph_nodes g) = omap inputId nodes /\
       edgeElements edges = Some edgeEls /\
       graph_edges g ⊆ edgeEls /\
       forall e, e ∈ edgeEls ->
         edge_source e ∉ omap inputId nodes \/ edge_target e ∉ omap inputId nodes ->
         e ∉ graph_edges g) /\
  (exists g,
     (initGraphViewer net true saved [NodeString "A"; NodeString "B"] [EdgeArray ["A"; "C"]] p).1
       = Built g /\
     edgeElements [EdgeArray ["A"; "C"]] = Some [EdgeElement "edge-0" "A" "C"] /\
     graph_edges g = []).
Proof.
  assert (forall nodes edges,
     NodeNull ∉ nodes -> EdgeNull ∉ edges ->
     exists g edgeEls,
       (initGraphViewer net true saved nodes edges p).1 = Built g /\
       (data_id <$> graph_nodes g) = omap inputId nodes /\
       edgeElements edges = Some edgeEls /\
       graph_edges g ⊆ edgeEls /\
       forall e, e ∈ edgeEls ->
         edge_source e ∉ omap inputId nodes \/ edge_target e ∉ omap inputId nodes ->
         e ∉ graph_edges g) as Hgen.
  { intros nodes edges Hn He.
    destruct (initGraphViewer_builds net saved nodes edges p Hn He)
      as (nodeEls & edgeEls & p' & -> & Hedges & Hnodes).
    apply element_ids in Hnodes.
    eexists _, edgeEls. split; [done|]. simpl. split; [done|]. split; [done|]. split.
    - intros e. rewrite list_elem_of_In, filter_In, <- list_elem_of_In. tauto.
    - intros e _ Hmiss. rewrite list_elem_of_In, filter_In, andb_true_iff.
      rewrite !bool_decide_eq_true, Hnodes. tauto. }
  split; [exact Hgen|].
  destruct (Hgen [NodeString "A"; NodeString "B"] [EdgeArray ["A"; "C"]])
    as (g & edgeEls & Hg & Hids & Hedges & Hsub & Hdrop).
  { rewrite !elem_of_cons, elem_of_nil. intros [H|[H|H]]; done. }
  { rewrite !elem_of_cons, elem_of_nil. intros [H|H]; done. }
  exists g. split; [done|]. split; [by vm_compute|].
  vm_compute in Hedges. injection Hedges as <-.
  destruct (graph_edges g) as [|e es] eqn:Hes; [done|]. exfalso.
  assert (e ∈ [EdgeElement "edge-0" "A" "C"]) as He by (apply Hsub; left).
  apply (Hdrop e He); [|left].
  apply list_elem_of_singleton in He as ->. right. simpl.
  rewrite !elem_of_cons, elem_of_nil. intros [H|[H|H]]; done.
Qed.

Lemma initGraphViewer_edge_filtering_witness :
  exists g,
    (initGraphViewer (fun _ => NetworkError) true None
       [NodeString "A"; NodeString "B"] [EdgeArray ["A"; "C"]] page0).1 = Built g /\
    graph_edges g = [].
Proof.
  destruct (proj2 (initGraphViewer_edge_filtering (fun _ => NetworkError) None page0))
    as (g & Hg & _ & Hedges).
  by exists g.
Defined.

Lemma element_of_input positionsMap (nodes : list nodeInput) (nodeEls : list nodeElement) el :
  ((fun el => (data_id el, el_position el)) <$> nodeEls) = omap (idAndPosition positionsMap) nodes ->
  el ∈ nodeEls ->
  exists n, n ∈ nodes /\ inputId n = Some (data_id el) /\
    el_position el = match inputPosition n with
                     | Some pos => Some (Coordinates pos)
                     | None => readPosition positionsMap (data_id el)
                     end.
Proof.
  intros Heq Hel.
  apply (list_elem_of_fmap_2 (fun el => (data_id el, el_position el))) in Hel.
  rewrite Heq in Hel. apply list_elem_of_omap in Hel as (n & Hn & Hid).
  exists n. split; [done|]. unfold idAndPosition in Hid.
  destruct (inputId n) as [id|]; simpl in Hid; [|done].
  by injection Hid as <- <-.
Qed.


(** C10: whenever [initGraphViewer] builds a graph, its layout is the
    fixed one exactly when the stored positions are not empty, and the
    automatic one exactly when they are; so with one stored entry, of
    whatever id, the layout is the fixed one, and a node without a stored
    position whose entries carry no position has no coordinates in the
    graph and is placed by no layout: its element has no position, or,
    when its id names a member of [Object.prototype], has that member for
    position. *)
Theorem initGraphViewer_layout (net : nat -> fetched) (saved : storage)
    (nodes : list nodeInput) (edges : list edgeInput) (p p' : page) (g : graph) :
  initGraphViewer net true saved nodes edges p = (Built g, p') ->
  (graph_layout g = Preset <-> loadNodePositions saved <> ∅) /\
  (graph_layout g = Dagre <-> loadNodePositions saved = ∅) /\
  (forall id pos, loadNodePositions saved !! id = Some pos ->
     graph_layout g = Preset /\
     forall el, el ∈ graph_nodes g ->
       loadNodePositions saved !! data_id el = None ->
       (forall n, n ∈ nodes -> inputId n = Some (data_id el) -> inputPosition n = None) ->
       el_position el =
         (if bool_decide (data_id el ∈ Object_prototype)
          then Some (Inherited (data_id el)) else None) /\
       (forall at_, el_position el <> Some (Coordinates at_)) /\
       placed g (data_id el) = None).
Proof.
  intros Hinit.
  apply initGraphViewer_inv in Hinit as (nodeEls & edgeEls & -> & _ & Hnodes).
  simpl graph_layout. simpl graph_nodes.
  assert (Nat.ltb 0 (size (loadNodePositions saved)) = true <-> loadNodePositions saved <> ∅) as Hsize.
  { rewrite <- map_size_non_empty_iff, Nat.ltb_lt. lia. }
  destruct (Nat.ltb 0 (size (loadNodePositions saved))) eqn:Hlt.
  - assert (loadNodePositions saved <> ∅) as Hne by (by apply Hsize).
    split; [done|]. split; [done|].
    intros id pos Hid. split; [done|].
    assert (forall el, el ∈ nodeEls ->
       loadNodePositions saved !! data_id el = None ->
       (forall n, n ∈ nodes -> inputId n = Some (data_id el) -> inputPosition n = None) ->
       el_position el =
         (if bool_decide (data_id el ∈ Object_prototype)
          then Some (Inherited (data_id el)) else None)) as Hnone.
    { intros el Hel Hstored Hinput.
      destruct (element_of_input _ _ _ _ Hnodes Hel) as (n & Hn & Hnid & ->).
      rewrite (Hinput n Hn Hnid). unfold readPosition. by rewrite Hstored. }
    intros el Hel Hstored Hinput. split; [by apply Hnone|]. split.
    + intros at_. rewrite (Hnone el Hel Hstored Hinput). by case_bool_decide.
    + unfold placed. simpl.
      destruct (list_find _ nodeEls) as [[i el']|] eqn:Hfind; simpl; [|done].
      apply list_find_Some in Hfind as (Hi & Hid' & _).
      rewrite (Hnone el'); [by case_bool_decide|by eapply list_elem_of_lookup_2
                            |by rewrite Hid'|by rewrite Hid'].
  - assert (loadNodePositions saved = ∅) as Hempty.
    { destruct (decide (loadNodePositions saved = ∅)) as [|Hne]; [done|].
      apply Hsize in Hne. done. }
    split; [by split|]. split; [done|].
    intros id pos. by rewrite Hempty, lookup_empty.
Qed.

(** One stored entry, for an id that is not among the nodes: the layout
    is the fixed one, the node A has no position, and the node
    [constructor] has the inherited member for position and no
    coordinates. *)
Lemma initGraphViewer_layout_witness :
  let saved : storage := Some {[ "Z" := Position 10 20 ]} in
  exists g,
    (initGraphViewer (fun _ => NetworkError) true saved
       [NodeString "A"; NodeString "constructor"] [] page0).1 = Built g /\
    graph_layout g = Preset /\
    graph_nodes g = [NodeElement "A" "A" None None;
                     NodeElement "constructor" "constructor" None (Some (Inherited "constructor"))] /\
    placed g "A" = None /\
    placed g "constructor" = None.
Proof.
  intros saved.
  destruct (initGraphViewer (fun _ => NetworkError) true saved
              [NodeString "A"; NodeString "constructor"] [] page0)
    as [o p'] eqn:Hinit.
  assert (exists g, o = Built g /\
            graph_nodes g = [NodeElement "A" "A" None None;
                             NodeElement "constructor" "constructor" None
                               (Some (Inherited "constructor"))]) as (g & -> & Hels).
  { vm_compute in Hinit. injection Hinit as <- _. by eexists. }
  exists g. split; [done|].
  destruct (initGraphViewer_layout _ _ _ _ _ _ _ Hinit) as (_ & _ & Hstored).
  destruct (Hstored "Z" (Position 10 20)) as [Hlayout Hnodes]; [by vm_compute|].
  split; [done|]. split; [done|]. split.
  - apply (Hnodes (NodeElement "A" "A" None None)); [rewrite Hels; by left|by vm_compute|].
    intros n Hn _. rewrite !elem_of_cons, elem_of_nil in Hn. by destruct Hn as [->|[->|[]]].
  - apply (Hnodes (NodeElement "constructor" "constructor" None (Some (Inherited "constructor"))));
      [rewrite Hels; right; by left|by vm_compute|].
    intros n Hn _. rewrite !elem_of_cons, elem_of_nil in Hn. by destruct Hn as [->|[->|[]]].
Defined.

(** ** Dragging a node *)

Lemma assign_other (positions : gmap string position) id id' pos :
  id' <> id -> assign positions id' pos !! id = positions !! id.
Proof.
  intros Hne. unfold assign. case_bool_decide; [done|]. by rewrite lookup_insert_ne.
Qed.

Lemma assign_same (positions : gmap string position) id pos :
  id <> "__proto__" -> assign positions id pos !! id = Some pos.
Proof.
  intros Hne. unfold assign. rewrite bool_decide_eq_false_2 by done.
  by rewrite lookup_insert_eq.
Qed.

Lemma positions_other (nodes : list cyNode) (positions : gmap string position) id :
  id ∉ nodeId <$> nodes ->
  foldl (fun positions node => assign positions (nodeId node) (nodePosition node))
        positions nodes !! id = positions !! id.
Proof.
  revert positions. induction nodes as [|n nodes IH]; intros positions Hid; [done|].
  simpl in *. apply not_elem_of_cons in Hid as [Hne Hid].
  rewrite IH by done. by rewrite assign_other.
Qed.


(** An integer as a JavaScript number. *)
Definition numZ (z : Z) : float :=
  if (z <? 0)%Z then (- PrimFloat.of_uint63 (Uint63.of_Z (- z)))%float
  else PrimFloat.of_uint63 (Uint63.of_Z z).


Fixpoint allFrom (check : Z -> bool) (z : Z) (n : nat) : bool :=
  match n with
  | 0 => true
  | S n => check z && allFrom check (z + 1) n
  end.

Lemma allFrom_spec check z n :
  allFrom check z n = true ->
  forall k, (z <= k < z + Z.of_nat n)%Z -> check k = true.
Proof.
  revert z. induction n as [|n IH]; intros z Hall k Hk; [lia|].
  simpl in Hall. apply andb_true_iff in Hall as [Hz Hall].
  destruct (decide (k = z)) as [->|Hne]; [done|].
  apply (IH (z + 1)%Z Hall). lia.
Qed.





(** * Further properties of pid_symbols.js *)

(** ** The order of the steps of findBestSymbol *)

(** X1: a label whose normalized form is a catalog name (not empty, at
    most 500 characters) resolves to that name, whatever the synonym map
    and the scores say. *)
Theorem findBestSymbol_exact (SYMBOL_NAMES : list string) (nodeName : string) :
  normalizeName nodeName <> "" ->
  String.length (normalizeName nodeName) <= 500 ->
  normalizeName nodeName ∈ SYMBOL_NAMES ->
  findBestSymbol SYMBOL_NAMES nodeName = Some (normalizeName nodeName).
Proof.
  intros Hne Hlen Hin. unfold findBestSymbol.
  destruct SYMBOL_NAMES as [|n names]; [by apply elem_of_nil in Hin|].
  simpl length. simpl Nat.eqb. cbv iota.
  rewrite bool_decide_eq_false_2 by done.
  destruct (Nat.ltb_spec 500 (String.length (normalizeName nodeName))); [lia|].
  by rewrite bool_decide_eq_true_2.
Qed.

(** "Ball-Valve" is the catalog name "ball_valve"; it is also a synonym
    key whose target "valve" is in the catalog, and the name wins. *)
Lemma findBestSymbol_exact_witness :
  synonym_of "ball_valve" = Some "valve" /\
  findBestSymbol ["valve"; "ball_valve"] "Ball-Valve" = Some "ball_valve".
Proof.
  split; [by vm_compute|].
  replace (Some "ball_valve") with (Some (normalizeName "Ball-Valve")) by (by vm_compute).
  apply (findBestSymbol_exact ["valve"; "ball_valve"] "Ball-Valve").
  - by vm_compute.
  - replace (normalizeName "Ball-Valve") with "ball_valve" by (by vm_compute). simpl. lia.
  - replace (normalizeName "Ball-Valve") with "ball_valve" by (by vm_compute).
    right. left.
Defined.

Lemma sortInsert_head {A} (compareFn : A -> A -> float) (x : A) (l : list A) :
  head (sortInsert compareFn x l) = Some x \/ head (sortInsert compareFn x l) = head l.
Proof. destruct l as [|y r]; simpl; [by left|]. destruct (0 <? _)%float; [by right|by left]. Qed.

(** The first element of a sorted array is an element of the array. *)
Lemma sort_head_elem {A} (compareFn : A -> A -> float) (l : list A) (b : A) :
  head (sort compareFn l) = Some b -> b ∈ l.
Proof.
  revert b. induction l as [|a r IH]; intros b; [done|].
  change (sort compareFn (a :: r)) with (sortInsert compareFn a (sort compareFn r)).
  destruct (sortInsert_head compareFn a (sort compareFn r)) as [-> | ->].
  - intros [= <-]. left.
  - intros Hb. right. by apply IH.
Qed.

Lemma bestScored_elem (SYMBOL_NAMES : list string) (normalized : string) (best : scored) :
  bestScored SYMBOL_NAMES normalized = Some best ->
  symbol best ∈ SYMBOL_NAMES /\ best = scoreOf normalized (symbol best).
Proof.
  unfold bestScored. intros Hb. apply sort_head_elem in Hb.
  apply list_elem_of_fmap in Hb as (s & -> & Hs). by split.
Qed.

(** How a result of [findBestSymbol] comes about. *)
Lemma findBestSymbol_cases (SYMBOL_NAMES : list string) (nodeName s : string) :
  findBestSymbol SYMBOL_NAMES nodeName = Some s ->
  s ∈ SYMBOL_NAMES /\
  (s = normalizeName nodeName \/
   synonym_of (normalizeName nodeName) = Some s \/
   (0.4 <=? score (scoreOf (normalizeName nodeName) s))%float = true).
Proof.
  unfold findBestSymbol.
  destruct (Nat.eqb (length SYMBOL_NAMES) 0); [done|].
  case_bool_decide; [done|].
  destruct (Nat.ltb 500 _); [done|].
  case_bool_decide as Hexact; [intros [= <-]; by auto|].
  assert (acceptBest (bestScored SYMBOL_NAMES (normalizeName nodeName)) = Some s ->
          s ∈ SYMBOL_NAMES /\
          (0.4 <=? score (scoreOf (normalizeName nodeName) s))%float = true) as Hscored.
  { unfold acceptBest.
    destruct (bestScored _ _) as [best|] eqn:Hbest; [|done].
    apply bestScored_elem in Hbest as [Hin Hbest].
    destruct (0.4 <=? score best)%float eqn:Hscore; [|done].
    intros [= <-]. split; [done|]. by rewrite <- Hbest. }
  destruct (synonym_of (normalizeName nodeName)) as [synonym|] eqn:Hsyn.
  - case_bool_decide as Hin; [intros [= <-]; by auto|].
    intros Hs. destruct (Hscored Hs). auto.
  - intros Hs. destruct (Hscored Hs). auto.
Qed.

(** X2: whatever [findBestSymbol] returns is a name of the catalog, and it
    is the normalized label itself, or its synonym, or a name that scores
    0.4 or more against it. *)
Theorem findBestSymbol_in_catalog (SYMBOL_NAMES : list string) (nodeName s : string) :
  findBestSymbol SYMBOL_NAMES nodeName = Some s ->
  s ∈ SYMBOL_NAMES /\
  (s = normalizeName nodeName \/
   synonym_of (normalizeName nodeName) = Some s \/
   (0.4 <=? score (scoreOf (normalizeName nodeName) s))%float = true).
Proof. apply findBestSymbol_cases. Qed.

Lemma findBestSymbol_in_catalog_witness :
  "gas" ∈ ["pump"; "gas"] /\
  ("gas" = normalizeName "Gas Compressor" \/
   synonym_of (normalizeName "Gas Compressor") = Some "gas" \/
   (0.4 <=? score (scoreOf (normalizeName "Gas Compressor") "gas"))%float = true).
Proof.
  apply (findBestSymbol_in_catalog ["pump"; "gas"] "Gas Compressor" "gas").
  by vm_compute.
Defined.

(** X3: [findBestSymbol] returns nothing when the catalog is empty, when
    the label normalizes to the empty string, and when the normalized
    label has more than 500 characters, be it a catalog name or not. *)
Theorem findBestSymbol_guards (SYMBOL_NAMES : list string) (nodeName : string) :
  SYMBOL_NAMES = [] \/ normalizeName nodeName = "" \/
    500 < String.length (normalizeName nodeName) ->
  findBestSymbol SYMBOL_NAMES nodeName = None.
Proof.
  intros H. unfold findBestSymbol.
  destruct SYMBOL_NAMES as [|n names]; [done|]. simpl length. simpl Nat.eqb. cbv iota.
  case_bool_decide as Hne; [done|].
  destruct (Nat.ltb_spec 500 (String.length (normalizeName nodeName))) as [|Hle]; [done|].
  destruct H as [H|[H|H]]; [done|done|lia].
Qed.

Definition longName : string := str (replicate 501 "a"%char).

(** A name of 501 letters is in the catalog and is asked for by itself. *)
Lemma findBestSymbol_guards_witness :
  normalizeName longName = longName /\
  findBestSymbol [longName] longName = None.
Proof.
  split; [by vm_compute|].
  apply findBestSymbol_guards. right. right.
  replace (normalizeName longName) with longName by (by vm_compute).
  replace (String.length longName) with 501 by (by vm_compute). lia.
Defined.

(** A joined list of canonical tokens is its own normalized form. *)
Lemma normalizeName_canonical (ts : list (list ascii)) :
  Forall canonicalToken ts ->
  normalizeName (str (join "_" ts)) = str (join "_" ts).
Proof.
  intros Hts. unfold normalizeName. case_bool_decide as Hy; [done|].
  by rewrite chars_str, normalizeTokens_join.
Qed.

Lemma normalizeName_tokens (x : string) :
  normalizeName x = str (join "_" (normalizeTokens (chars x))).
Proof. unfold normalizeName. case_bool_decide as Hx; [by subst|done]. Qed.

(** X4: matching a label and matching its normalized form give the same
    result: [findBestSymbol] sees a label through [normalizeName] only,
    and a normalized label normalizes to itself. *)
Theorem findBestSymbol_normalized (SYMBOL_NAMES : list string) (nodeName : string) :
  findBestSymbol SYMBOL_NAMES (normalizeName nodeName) = findBestSymbol SYMBOL_NAMES nodeName.
Proof.
  unfold findBestSymbol.
  assert (normalizeName (normalizeName nodeName) = normalizeName nodeName) as ->; [|done].
  rewrite (normalizeName_tokens nodeName). apply normalizeName_canonical.
  apply normalizeTokens_canonical.
Qed.

(** ** The shape of a normalized name *)

Lemma tokenize_join (ts : list (list ascii)) :
  Forall canonicalToken ts -> tokenize (str (join "_" ts)) = str <$> ts.
Proof.
  intros Hts. unfold tokenize. rewrite chars_str.
  destruct ts as [|t ts]; [done|].
  rewrite split_join; [|done|].
  2:{ eapply Forall_impl; [exact Hts|]. intros t0 [Ht0 _].
      eapply Forall_impl; [exact Ht0|]. apply alnum_not_underscore. }
  f_equal. generalize (t :: ts) Hts. clear.
  induction 1 as [|t ts Ht Hts IH]; [done|].
  simpl. rewrite bool_decide_eq_false_2 by (by apply canonicalToken_nonempty).
  simpl. by rewrite IH.
Qed.

(** X5: a normalized name is made of the characters [a-z0-9_] only; its
    tokens are not empty, are no stopwords and hold no underscore; and
    joining the tokens by underscores gives the name back, so that it has
    no underscore at either end and no two in a row. *)
Theorem normalizeName_shape (x : string) :
  Forall (fun c => is_alnum c = true \/ c = "_"%char) (chars (normalizeName x)) /\
  Forall (fun t => t <> "" /\ (t ∉ STOPWORDS) /\ Forall (fun c => is_alnum c = true) (chars t))
         (tokenize (normalizeName x)) /\
  normalizeName x = str (join "_" (chars <$> tokenize (normalizeName x))).
Proof.
  rewrite (normalizeName_tokens x).
  pose proof (normalizeTokens_canonical (chars x)) as Hts.
  set (ts := normalizeTokens (chars x)) in *. clearbody ts.
  rewrite tokenize_join by done. rewrite chars_str. split; [|split].
  - apply join_chars; [by right|].
    eapply Forall_impl; [exact Hts|]. intros t [Ht _].
    eapply Forall_impl; [exact Ht|]. auto.
  - apply Forall_fmap. eapply Forall_impl; [exact Hts|]. intros t [Ht Hk]. simpl.
    unfold keepToken in Hk. apply andb_true_iff in Hk as [Hne Hstop].
    apply negb_true_iff, bool_decide_eq_false in Hne, Hstop.
    rewrite chars_str. split; [|done].
    intros Hempty. apply Hne. by rewrite <- (chars_str t), Hempty.
  - f_equal. f_equal. rewrite <- list_fmap_compose.
    rewrite <- (list_fmap_id ts) at 1. apply list_fmap_ext. intros i t _. simpl.
    by rewrite chars_str.
Qed.

(** ** Bounds of the edit distance *)

Lemma indicator_le s1 s2 i j : indicator s1 s2 i j <= 1.
Proof. unfold indicator. case_bool_decide; lia. Qed.

Lemma cell_bounds s1 s2 j i :
  cell s1 s2 j i <= Nat.max i j /\ i - j <= cell s1 s2 j i /\ j - i <= cell s1 s2 j i.
Proof.
  revert i. induction j as [|j IHj]; intros i; [simpl; lia|].
  induction i as [|i IHi]; [rewrite cell_j_0; lia|].
  rewrite cell_S_S.
  pose proof (IHj i). pose proof (IHj (S i)). pose proof (indicator_le s1 s2 (S i) (S j)).
  lia.
Qed.

(** An entry of the matrix is 0 only for equal prefixes. *)
Lemma cell_zero s1 s2 j i :
  i <= length s1 -> j <= length s2 ->
  cell s1 s2 j i = 0 -> i = j /\ take i s1 = take j s2.
Proof.
  revert i. induction j as [|j IHj]; intros i Hi Hj.
  - simpl. by intros ->.
  - destruct i as [|i]; [by rewrite cell_j_0|].
    rewrite cell_S_S. intros Hz.
    assert (cell s1 s2 j i = 0 /\ indicator s1 s2 (S i) (S j) = 0) as [Hc Hind] by lia.
    destruct (IHj i ltac:(lia) ltac:(lia) Hc) as [<- Htake].
    unfold indicator in Hind. case_bool_decide as Heq; [|done].
    rewrite !Nat.sub_succ, !Nat.sub_0_r in Heq.
    destruct (lookup_lt_is_Some_2 s1 i ltac:(lia)) as [c Hc1].
    split; [done|].
    rewrite (take_S_r s1 i c Hc1), (take_S_r s2 i c) by (by rewrite <- Heq).
    by rewrite Htake.
Qed.

Lemma chars_inj (a b : string) : chars a = chars b -> a = b.
Proof. intros H. by rewrite <- (str_chars a), <- (str_chars b), H. Qed.

(** X6: the distance is at most the greater of the two lengths and at
    least their difference; it is 0 only for equal strings; and the
    distance to the empty string is the length. *)
Theorem levenshteinDistance_bounds (a b : string) :
  levenshteinDistance a b <= Nat.max (String.length a) (String.length b) /\
  String.length a - String.length b <= levenshteinDistance a b /\
  String.length b - String.length a <= levenshteinDistance a b /\
  (levenshteinDistance a b = 0 -> a = b) /\
  levenshteinDistance a "" = String.length a.
Proof.
  assert (levenshteinDistance a "" = String.length a) as Hempty.
  { destruct (decide (String.length a <= MAX_LEN)) as [Ha|Ha].
    - rewrite levenshteinDistance_cell by (done || (unfold MAX_LEN; simpl; lia)). done.
    - rewrite levenshteinDistance_long by lia. simpl. lia. }
  destruct (decide (String.length a <= MAX_LEN /\ String.length b <= MAX_LEN)) as [[Ha Hb]|Hlong].
  - rewrite levenshteinDistance_cell by done.
    pose proof (cell_bounds (chars a) (chars b) (String.length b) (String.length a)).
    split; [lia|]. split; [lia|]. split; [lia|]. split; [|done].
    intros Hz. apply cell_zero in Hz as [_ Htake]; rewrite ?length_chars; try done.
    rewrite <- !length_chars, !firstn_all in Htake. by apply chars_inj.
  - rewrite levenshteinDistance_long by lia.
    split; [lia|]. split; [lia|]. split; [lia|]. split; [|done].
    unfold MAX_LEN in Hlong. lia.
Qed.

(** ** The similarity of a name to itself *)

Lemma split_tokens_length (sep : ascii) (s : list ascii) :
  length (List.filter (fun t => negb (bool_decide (t = []))) (split sep s)) <= length s.
Proof.
  induction s as [|c r IH]; [done|]. simpl.
  destruct (Ascii.eqb c sep); [simpl; lia|].
  destruct (split sep r) as [|h t]; [simpl; lia|].
  simpl in *. destruct h; simpl in *; lia.
Qed.

Lemma tokenize_length (sym : string) : length (tokenize sym) <= String.length sym.
Proof.
  unfold tokenize. rewrite length_map, <- length_chars. apply split_tokens_length.
Qed.

Lemma filter_all {A} (f : A -> bool) (l : list A) :
  Forall (fun a => f a = true) l -> List.filter f l = l.
Proof. induction 1 as [|a l Ha Hl IH]; [done|]. simpl. by rewrite Ha, IH. Qed.

(** The quotients that the score of a name against itself is made of, for
    the counts from 1 to 1000. *)
Lemma self_quotients (n : nat) :
  1 <= n <= 1000 ->
  (num n / num n)%float = 1%float /\ (1 - num 0 / num n)%float = 1%float.
Proof.
  intros Hn.
  assert (forallb (fun n => PrimFloat.Leibniz.eqb (num n / num n) 1 &&
                            PrimFloat.Leibniz.eqb (1 - num 0 / num n) 1)%float
                  (seq 1 1000) = true) as Hall by (by vm_compute).
  rewrite forallb_forall in Hall.
  specialize (Hall n). rewrite in_seq, andb_true_iff in Hall.
  destruct Hall as [H1 H2]; [lia|].
  by apply FloatAxioms.Leibniz.eqb_spec in H1, H2.
Qed.

(** X7: a name of at most 1000 characters that has a token scores exactly
    1 against itself. *)
Theorem calculateSimilarity_self (x : string) :
  tokenize x <> [] -> String.length x <= 1000 ->
  calculateSimilarity x x = 1%float.
Proof.
  intros Htok Hlen. unfold calculateSimilarity.
  pose proof (tokenize_length x) as Hn.
  assert (1 <= length (tokenize x)) as Hn1 by (destruct (tokenize x); [done|simpl; lia]).
  rewrite Nat.max_id.
  destruct (Nat.eqb_spec (String.length x) 0) as [|_]; [lia|].
  destruct (Nat.eqb_spec (length (tokenize x)) 0) as [|_]; [lia|].
  rewrite levenshteinDistance_cell by done.
  rewrite <- length_chars, cell_diag.
  rewrite filter_all by (apply Forall_forall; intros t Ht; by apply bool_decide_eq_true_2).
  destruct (self_quotients (length (tokenize x))) as [-> _]; [lia|].
  destruct (self_quotients (length (chars x))) as [_ ->]; [rewrite length_chars; lia|].
  by vm_compute.
Qed.

Lemma calculateSimilarity_self_witness :
  calculateSimilarity "heat_exchanger" "heat_exchanger" = 1%float.
Proof. apply calculateSimilarity_self; [by vm_compute|simpl; lia]. Defined.

(** ** The catalog once it is loaded *)

Lemma loadSymbols_resume_keeps_flag (r : fetched) (c : catalog) :
  SYMBOLS_LOADED c = true -> SYMBOLS_LOADED (loadSymbols_resume r c) = true.
Proof.
  intros Hc. destruct r as [| | |data]; simpl; try done.
  destruct (getProp data "success") as [success|]; [|done].
  destruct (getProp data "symbols") as [symbols|]; [|done].
  destruct (truthy success && truthy symbols); [|done].
  by destruct (symbolNames _).
Qed.

(** X8: once [SYMBOLS_LOADED] is set it stays set, and no call sends a
    request any more, whatever calls and late answers follow. *)
Theorem loaded_stays_loaded (s : running) (es : list event) :
  SYMBOLS_LOADED (cat (state s)) = true ->
  SYMBOLS_LOADED (cat (state (run s es))) = true /\
  sent (state (run s es)) = sent (state s).
Proof.
  revert s. induction es as [|e es IH]; intros s Hs; [done|].
  change (run s (e :: es)) with (run (step s e) es).
  assert (SYMBOLS_LOADED (cat (state (step s e))) = true /\
          sent (state (step s e)) = sent (state s)) as [Hl Hsent].
  { destruct e as [|r]; simpl.
    - unfold loadSymbols_fetches. by rewrite Hs.
    - destruct (waiting s); [done|]. simpl. split; [|done].
      by apply loadSymbols_resume_keeps_flag. }
  destruct (IH _ Hl) as [Hl' Hsent']. split; [done|]. by rewrite Hsent', Hsent.
Qed.

(** Two calls, the first answered well; then the second answer fails and
    two more calls come: the flag is set and the count stays at 2. *)
Lemma loaded_stays_loaded_witness :
  let s := run (Running page0 0) [Call; Call; Settle goodPayload] in
  let s' := run s [Settle NetworkError; Call; Call] in
  SYMBOLS_LOADED (cat (state s')) = true /\ sent (state s') = 2.
Proof.
  intros s s'.
  destruct (loaded_stays_loaded s [Settle NetworkError; Call; Call]) as [Hl Hsent];
    [by vm_compute|].
  split; [exact Hl|]. unfold s'. rewrite Hsent. by vm_compute.
Defined.

Lemma omap_length_le {A B} (f : A -> option B) (l : list A) :
  length (omap f l) <= length l.
Proof.
  induction l as [|a l IH]; [done|].
  change (omap f (a :: l)) with (match f a with Some b => b :: omap f l | None => omap f l end).
  destruct (f a); simpl; lia.
Qed.

Lemma symbolNames_items (symbols : json) (names : list string) :
  symbolNames symbols = Some names ->
  exists items read,
    symbols = JArr items /\
    Forall2 (fun item name => symbolName item = Some name) items read /\
    names = omap (fun n => n ≫= fun s => if bool_decide (s = "") then None else Some s) read.
Proof.
  destruct symbols as [| | | |items|]; try done. simpl.
  destruct (mapM symbolName items) as [read|] eqn:Hread; [|done].
  intros [= <-]. exists items, read. split; [done|]. split; [|done].
  by apply mapM_Some_1.
Qed.

(** X9: an accepted payload whose entries can all be read replaces the
    catalog as a whole, whatever it held: the entries are the payload's
    list, the flag is set, and the names, at most one for an entry, are
    not empty and hold every non-empty string of the list as it is. *)
Theorem loadSymbols_success (data symbols : json) (names : list string) (c : catalog) :
  payloadAccepted data = true ->
  getProp data "symbols" = Some (Some symbols) ->
  symbolNames symbols = Some names ->
  loadSymbols_resume (Payload data) c = Catalog symbols names true /\
  exists items,
    symbols = JArr items /\
    length names <= length items /\
    ("" ∉ names) /\
    (forall s, JStr s ∈ items -> s <> "" -> s ∈ names).
Proof.
  intros Hacc Hsymbols Hnames. split.
  - simpl. unfold payloadAccepted in Hacc. rewrite Hsymbols in *.
    destruct (getProp data "success") as [success|]; [|done].
    rewrite Hacc. simpl. by rewrite Hnames.
  - apply symbolNames_items in Hnames as (items & read & -> & Hread & ->).
    exists items. split; [done|]. split; [|split].
    + rewrite (Forall2_length _ _ _ Hread). apply omap_length_le.
    + intros Hin. apply list_elem_of_omap in Hin as (n & _ & Hn).
      destruct n as [n|]; [|done]. simpl in Hn.
      case_bool_decide as Hempty; [done|]. by injection Hn.
    + intros s Hin Hne. apply list_elem_of_omap.
      apply list_elem_of_lookup in Hin as [i Hi].
      destruct (Forall2_lookup_l _ _ _ _ _ Hread Hi) as (n & Hn & Hname).
      simpl in Hname. injection Hname as <-.
      exists (Some s). split; [by eapply list_elem_of_lookup_2|].
      simpl. by rewrite bool_decide_eq_false_2.
Qed.

Lemma loadSymbols_success_witness :
  loadSymbols_resume goodPayload (Catalog (JStr "valve") ["old"] false) =
    Catalog (JArr [JObj [("name", JStr "Ball Valve"); ("category", JStr "valves")]; JStr "pump"])
            ["ball_valve"; "pump"] true.
Proof.
  apply (loadSymbols_success
           (JObj [("success", JBool true);
                  ("symbols", JArr [JObj [("name", JStr "Ball Valve"); ("category", JStr "valves")];
                                    JStr "pump"])])); by vm_compute.
Defined.

Lemma lower_char_not_upper c : is_upper (lower_char c) = false.
Proof. all_chars c. Qed.

Lemma space_not_upper c : is_space c = true -> is_upper c = false.
Proof. all_chars c. Qed.

Lemma spacesToUnderscore_chars (b : bool) (s : list ascii) :
  Forall (fun c => is_upper c = false) s ->
  Forall (fun c => is_space c = false /\ is_upper c = false) (spacesToUnderscore b s).
Proof.
  intros Hs. revert b. induction Hs as [|c r Hc Hr IH]; intros b; simpl; [done|].
  destruct (is_space c) eqn:Hsp.
  - destruct b; [done|]. constructor; [by vm_compute|done].
  - by constructor.
Qed.

Lemma spacesToUnderscore_nonempty (s : list ascii) :
  s <> [] -> spacesToUnderscore false s <> [].
Proof. destruct s as [|c r]; [done|]. intros _. simpl. by destruct (is_space c). Qed.

(** X10: the name read from an entry that is no string (an object with a
    name) is not empty and holds no white space and no capital of [A-Z]. *)
Theorem symbolName_converted (sym : json) (s : string) :
  (forall t, sym <> JStr t) ->
  symbolName sym = Some (Some s) ->
  s <> "" /\ Forall (fun c => is_space c = false /\ is_upper c = false) (chars s).
Proof.
  intros Hsym. unfold symbolName.
  destruct sym as [| | |t| |fields]; try done; [by destruct (Hsym t)|].
  destruct (getProp (JObj fields) "name") as [name|]; [|done].
  destruct (truthy name) eqn:Ht; [|done].
  destruct name as [[| | |n| |]|]; try done. intros [= <-].
  rewrite chars_str. split.
  - intros Hempty. apply (f_equal chars) in Hempty. rewrite chars_str in Hempty.
    apply spacesToUnderscore_nonempty in Hempty; [done|].
    simpl in Ht. destruct n; [done|]. done.
  - apply spacesToUnderscore_chars. unfold toLowerCase.
    apply Forall_fmap, Forall_forall. intros c _. apply lower_char_not_upper.
Qed.

Lemma symbolName_converted_witness :
  symbolName (JObj [("name", JStr "Heat   Exchanger"); ("path", JStr "he.png")])
    = Some (Some "heat_exchanger") /\
  "heat_exchanger" <> "" /\
  Forall (fun c => is_space c = false /\ is_upper c = false) (chars "heat_exchanger").
Proof.
  split; [by vm_compute|].
  apply (symbolName_converted (JObj [("name", JStr "Heat   Exchanger"); ("path", JStr "he.png")]));
    [done|by vm_compute].
Defined.

(** ** The callers of loadSymbols *)

(** [getAvailableSymbols()]: the entries it returns. *)
Definition getAvailableSymbols (net : nat -> fetched) (p : page) : json * page :=
  let p := if SYMBOLS_LOADED (cat p) then p else loadSymbols net p in
  (ALL_SYMBOLS (cat p), p).

(** X11: [getNodeStyle] and [getAvailableSymbols] send at most one request,
    and none once the catalog is loaded, when they leave the page as it
    is; the image of a style is the path of a name of the catalog, and
    there is none exactly when the label has no match. *)
Theorem callers_of_loadSymbols (net : nat -> fetched) (nodeName : string) (p : page) :
  let style := getNodeStyle net nodeName p in
  let listed := getAvailableSymbols net p in
  sent p <= sent style.2 <= S (sent p) /\
  style.2 = listed.2 /\
  (SYMBOLS_LOADED (cat p) = true -> style.2 = p /\ listed = (ALL_SYMBOLS (cat p), p)) /\
  (forall url, style.1 = Some url ->
     exists s, s ∈ SYMBOL_NAMES (cat style.2) /\
               findBestSymbol (SYMBOL_NAMES (cat style.2)) nodeName = Some s /\
               url = "/static/symbols/" +:+ s +:+ ".png") /\
  (style.1 = None <-> findBestSymbol (SYMBOL_NAMES (cat style.2)) nodeName = None).
Proof.
  unfold getNodeStyle, getAvailableSymbols.
  set (p' := if SYMBOLS_LOADED (cat p) then p else loadSymbols net p).
  assert (sent p <= sent p' <= S (sent p)) as Hsent.
  { unfold p', loadSymbols, loadSymbols_fetches.
    destruct (SYMBOLS_LOADED (cat p)); simpl; lia. }
  assert (SYMBOLS_LOADED (cat p) = true -> p' = p /\ (ALL_SYMBOLS (cat p'), p') = (ALL_SYMBOLS (cat p), p))
    as Hsame.
  { unfold p'. by intros ->. }
  destruct (findBestSymbol (SYMBOL_NAMES (cat p')) nodeName) as [s|] eqn:Hbest; simpl;
    rewrite ?Hbest.
  - split; [done|]. split; [done|]. split; [done|]. split; [|done].
    intros url [= <-]. exists s. split; [|done].
    by apply findBestSymbol_cases in Hbest as [Hin _].
  - split; [done|]. split; [done|]. split; [done|]. split; [done|done].
Qed.

(** * Further properties of graph_viewer.js *)

(** ** Entries that are null *)

Lemma NodeNull_dec (nodes : list nodeInput) : NodeNull ∈ nodes \/ NodeNull ∉ nodes.
Proof.
  induction nodes as [|n nodes [IH|IH]].
  - right. apply not_elem_of_nil.
  - left. by right.
  - destruct n; try (right; apply not_elem_of_cons; by split). left. left.
Qed.

Lemma EdgeNull_dec (edges : list edgeInput) : EdgeNull ∈ edges \/ EdgeNull ∉ edges.
Proof.
  induction edges as [|e edges [IH|IH]].
  - right. apply not_elem_of_nil.
  - left. by right.
  - destruct e; try (right; apply not_elem_of_cons; by split). left. left.
Qed.

Lemma nodeElements_null net positionsMap nodes p :
  NodeNull ∈ nodes -> (nodeElements net positionsMap nodes p).1 = None.
Proof.
  revert p. induction nodes as [|n nodes IH]; intros p Hin; [by apply elem_of_nil in Hin|].
  simpl. assert (n = NodeNull \/ n <> NodeNull) as [->|Hn] by (destruct n; auto); [done|].
  destruct (nodeElementOf_spec net positionsMap n p Hn) as (el & p1 & -> & _).
  apply elem_of_cons in Hin as [Hin|Hin]; [done|].
  specialize (IH p1 Hin). destruct (nodeElements net positionsMap nodes p1) as [els p2].
  simpl in *. by rewrite IH.
Qed.

Lemma edgeElements_null edges : EdgeNull ∈ edges -> edgeElements edges = None.
Proof.
  intros Hin. unfold edgeElements.
  destruct (mapM _ _) as [rs|] eqn:Hrs; [|done]. exfalso.
  assert (is_Some (mapM (fun ie : nat * edgeInput => edgeElementOf ie.1 ie.2) (imap pair edges)))
    as Hsome by (by rewrite Hrs).
  apply mapM_is_Some_1 in Hsome.
  apply list_elem_of_lookup in Hin as [i Hi].
  assert (imap pair edges !! i = Some (i, EdgeNull)) as Hpair
    by (by rewrite list_lookup_imap, Hi).
  pose proof (Forall_lookup_1 _ _ _ _ Hsome Hpair) as [r Hr]. done.
Qed.

(** ** The elements of the nodes *)

(** The image that an entry brings along: [nodeOrId.imageUrl || null]. *)
Definition inputImage (n : nodeInput) : option string :=
  match n with
  | NodeObject _ imageUrl _ => nonEmpty imageUrl
  | _ => None
  end.

(** The entries that get an element, in their order. *)
Definition withId (nodes : list nodeInput) : list nodeInput :=
  List.filter (fun n => bool_decide (is_Some (inputId n))) nodes.

(** What the element of an entry holds. *)
Definition elementFor (positionsMap : gmap string position) (n : nodeInput)
    (el : nodeElement) : Prop :=
  inputId n = Some (data_id el) /\
  data_label el = data_id el /\
  (forall url, inputImage n = Some url -> data_imageUrl el = Some url) /\
  el_position el = match inputPosition n with
                   | Some pos => Some (Coordinates pos)
                   | None =>
                       match positionsMap !! data_id el with
                       | Some pos => Some (Coordinates pos)
                       | None =>
                           if bool_decide (data_id el ∈ Object_prototype)
                           then Some (Inherited (data_id el)) else None
                       end
                   end.

Lemma nodeElementOf_full net positionsMap n p el p' :
  nodeElementOf net positionsMap n p = (Some el, p') ->
  match el with
  | Some el => is_Some (inputId n) /\ elementFor positionsMap n el
  | None => inputId n = None
  end /\
  (inputId n = None \/ is_Some (inputImage n) -> p' = p).
Proof.
  unfold nodeElementOf, elementFor.
  destruct n as [id|id imageUrl pos| |]; simpl; [| |done|].
  - destruct (getNodeStyle net id p) as [image p1]. intros [= <- <-]. simpl.
    split; [by eauto|]. by intros [?|[? ?]].
  - destruct (nonEmpty id) as [id'|]; simpl.
    + destruct (nonEmpty imageUrl) as [url|]; simpl.
      * intros [= <- <-]. simpl. split; [|done].
        split; [by eauto|]. split; [done|]. split; [done|]. split; [by intros ? [= <-]|done].
      * destruct (getNodeStyle net id' p) as [image p1]. intros [= <- <-]. simpl.
        split; [by eauto|]. by intros [?|[? ?]].
    + by intros [= <- <-].
  - by intros [= <- <-].
Qed.

Lemma nodeElements_full net positionsMap nodes p els p' :
  nodeElements net positionsMap nodes p = (Some els, p') ->
  Forall2 (elementFor positionsMap) (withId nodes) els /\
  (Forall (fun n => is_Some (inputImage n)) (withId nodes) -> p' = p).
Proof.
  revert p els p'. induction nodes as [|n nodes IH]; intros p els p'; simpl.
  - intros [= <- <-]. split; [constructor|done].
  - destruct (nodeElementOf net positionsMap n p) as [[el|] p1] eqn:Hel; [|done].
    destruct (nodeElements net positionsMap nodes p1) as [[els1|] p2] eqn:Hrest; simpl; [|done].
    intros [= <- <-].
    destruct (nodeElementOf_full _ _ _ _ _ _ Hel) as [Hfor Hpage].
    destruct (IH _ _ _ Hrest) as [Hall Hpages].
    unfold withId in *. simpl.
    destruct el as [el|]; simpl.
    + destruct Hfor as [Hid Hfor]. rewrite bool_decide_eq_true_2 by done.
      split; [by constructor|].
      intros Himg. inversion Himg as [|?? Hn Hrest']; subst.
      rewrite (Hpages Hrest'). apply Hpage. by right.
    + rewrite Hfor. rewrite bool_decide_eq_false_2 by (by intros [? ?]).
      split; [done|]. intros Himg. rewrite (Hpages Himg). apply Hpage. by left.
Qed.

(** X13: in the graph that [initGraphViewer] builds the nodes are the
    entries with an id, in their order; each has its id as label, the
    image of its entry when the entry brings one, and for position that of
    the entry, else the stored one, else the member of [Object.prototype]
    that its id names, else none.  When every such entry brings its image,
    the catalog is asked for once, at the start, and not again. *)
Theorem initGraphViewer_nodes (net : nat -> fetched) (saved : storage)
    (nodes : list nodeInput) (edges : list edgeInput) (p p' : page) (g : graph) :
  initGraphViewer net true saved nodes edges p = (Built g, p') ->
  Forall2 (elementFor (loadNodePositions saved)) (withId nodes) (graph_nodes g) /\
  (Forall (fun n => is_Some (inputImage n)) (withId nodes) -> p' = loadSymbols net p).
Proof.
  unfold initGraphViewer. simpl negb. cbv iota.
  destruct (nodeElements _ _ _ _) as [[nodeEls|] p1] eqn:Hnodes; [|done].
  destruct (edgeElements edges) as [edgeEls|]; [|done].
  intros [= <- <-]. simpl. by apply nodeElements_full in Hnodes.
Qed.

(** Entries with images of their own: the first has a position of its
    own and keeps it, the second gets the stored one, the third, named as
    a member of [Object.prototype], gets that member; no request is sent
    after the one at the start. *)
Lemma initGraphViewer_nodes_witness :
  let saved : storage := Some {[ "B" := Position 5 5 ]} in
  let nodes := [NodeObject (Some "A") (Some "a.png") (Some (Position 1 2));
                NodeOther;
                NodeObject (Some "B") (Some "b.png") None;
                NodeObject (Some "toString") (Some "t.png") None] in
  let r := initGraphViewer (fun _ => NetworkError) true saved nodes [] page0 in
  r.1 = Built (Graph [NodeElement "A" "A" (Some "a.png") (Some (Coordinates (Position 1 2)));
                      NodeElement "B" "B" (Some "b.png") (Some (Coordinates (Position 5 5)));
                      NodeElement "toString" "toString" (Some "t.png")
                                  (Some (Inherited "toString"))] [] Preset) /\
  sent r.2 = 1.
Proof.
  intros saved nodes r.
  destruct r as [o p'] eqn:Hr.
  assert (o = Built (Graph [NodeElement "A" "A" (Some "a.png") (Some (Coordinates (Position 1 2)));
                            NodeElement "B" "B" (Some "b.png") (Some (Coordinates (Position 5 5)));
                            NodeElement "toString" "toString" (Some "t.png")
                                        (Some (Inherited "toString"))] [] Preset))
    as -> by (by vm_compute in Hr; injection Hr as <- _).
  split; [done|].
  destruct (initGraphViewer_nodes _ _ _ _ _ _ _ Hr) as [_ Hpage].
  simpl. rewrite Hpage; [by vm_compute|].
  unfold withId, nodes. simpl. repeat constructor; by eexists.
Defined.

(** ** The elements of the edges *)

Lemma edge_id_inj (i j : nat) :
  "edge-" +:+ pretty i = "edge-" +:+ pretty j -> i = j.
Proof.
  intros H. apply (inj (String.app "edge-")) in H. by apply (inj pretty) in H.
Qed.

(** The callback of [forEach], run over [edges] from the index [k] on. *)
Lemma edgeElements_from (k : nat) (edges : list edgeInput) (l : list (option edgeElement)) :
  mapM (fun ie : nat * edgeInput => edgeElementOf ie.1 ie.2) (imap (fun i => pair (k + i)) edges) = Some l ->
  length l = length edges /\
  forall el, el ∈ omap id l ->
    exists idx edge, k <= idx /\ edges !! (idx - k) = Some edge /\
      edgeElementOf idx edge = Some (Some el).
Proof.
  revert k l. induction edges as [|e edges IH]; intros k l; simpl.
  - intros [= <-]. split; [done|]. intros el Hel. by apply elem_of_nil in Hel.
  - rewrite Nat.add_0_r.
    destruct (edgeElementOf k e) as [r|] eqn:Hr; simpl; [|done].
    destruct (mapM _ _) as [l'|] eqn:Hl'; simpl; [|done]. intros [= <-].
    rewrite (imap_ext _ (fun i => pair (S k + i))) in Hl'
      by (intros; simpl; f_equal; lia).
    destruct (IH _ _ Hl') as [Hlen Hrest]. split; [simpl; lia|].
    intros el Hel.
    assert (r = Some el \/ el ∈ omap id l') as [->|Hin].
    { destruct r as [el'|]; simpl in Hel; [|by right].
      apply elem_of_cons in Hel as [->|Hel]; [by left|by right]. }
    + exists k, e. split; [lia|]. by rewrite Nat.sub_diag.
    + destruct (Hrest el Hin) as (idx & edge & Hle & Hidx & Hel').
      exists idx, edge. split; [lia|]. split; [|done].
      replace (idx - k) with (S (idx - S k)) by lia. done.
Qed.

Lemma edgeElements_from_NoDup (k : nat) (edges : list edgeInput) (l : list (option edgeElement)) :
  mapM (fun ie : nat * edgeInput => edgeElementOf ie.1 ie.2) (imap (fun i => pair (k + i)) edges) = Some l ->
  NoDup (edge_id <$> omap id l).
Proof.
  revert k l. induction edges as [|e edges IH]; intros k l; simpl.
  - intros [= <-]. constructor.
  - rewrite Nat.add_0_r.
    destruct (edgeElementOf k e) as [r|] eqn:Hr; simpl; [|done].
    destruct (mapM _ _) as [l'|] eqn:Hl'; simpl; [|done]. intros [= <-].
    rewrite (imap_ext _ (fun i => pair (S k + i))) in Hl'
      by (intros; simpl; f_equal; lia).
    destruct r as [el|]; simpl; [|by eapply IH].
    apply NoDup_cons. split; [|by eapply IH].
    intros Hin. apply list_elem_of_fmap in Hin as (el' & Hid & Hin).
    destruct (proj2 (edgeElements_from _ _ _ Hl') el' Hin) as (idx & edge & Hle & _ & Hel').
    assert (forall i ed el0, edgeElementOf i ed = Some (Some el0) ->
              edge_id el0 = "edge-" +:+ pretty i) as Hids.
    { intros i ed el0. unfold edgeElementOf.
      destruct (match ed with EdgeNull => None | _ => _ end) as [[s t]|]; simpl; [|done].
      destruct (nonEmpty s), (nonEmpty t); simpl; try done. by intros [= <-]. }
    rewrite (Hids _ _ _ Hr), (Hids _ _ _ Hel') in Hid.
    apply edge_id_inj in Hid. lia.
Qed.

Lemma nonEmpty_Some (v : option string) (s : string) :
  nonEmpty v = Some s <-> v = Some s /\ s <> "".
Proof.
  unfold nonEmpty. destruct v as [s'|]; simpl; [|by split; [|intros [? ?]]].
  case_bool_decide as He.
  - split; [done|]. intros [[= ->] Hne]. done.
  - split; [by intros [= ->]|]. by intros [[= ->] _].
Qed.

(** What the callback reads as the two ends of an edge. *)
Definition ends (edge : edgeInput) : option string * option string :=
  match edge with
  | EdgeArray items => (items !! 0, items !! 1)
  | EdgeObject fields =>
      (orElse (field fields "source") (orElse (field fields "from")
         (orElse (field fields "src") (field fields "0"))),
       orElse (field fields "target") (orElse (field fields "to")
         (orElse (field fields "dst") (field fields "1"))))
  | _ => (None, None)
  end.

(** X14: the edges read from [edges] carry distinct ids, each [edge-i] for
    the index [i] of the entry it was read from, whatever entries were
    skipped before it; the source and the target are the two ends of that
    entry and neither is the empty string; an entry without one of the two
    gives no edge, so there are at most as many edges as entries. *)
Theorem edgeElements_ids (edges : list edgeInput) (els : list edgeElement) :
  edgeElements edges = Some els ->
  NoDup (edge_id <$> els) /\
  length els <= length edges /\
  (forall el, el ∈ els ->
     edge_source el <> "" /\ edge_target el <> "" /\
     exists idx edge, edges !! idx = Some edge /\
       el = EdgeElement ("edge-" +:+ pretty idx) (edge_source el) (edge_target el) /\
       ends edge = (Some (edge_source el), Some (edge_target el))) /\
  (forall idx edge, edges !! idx = Some edge ->
     (ends edge).1 = None \/ (ends edge).1 = Some "" \/
     (ends edge).2 = None \/ (ends edge).2 = Some "" ->
     "edge-" +:+ pretty idx ∉ edge_id <$> els).
Proof.
  unfold edgeElements.
  destruct (mapM _ _) as [l|] eqn:Hl; simpl; [|done]. intros [= <-].
  change (imap pair edges) with (imap (fun i => pair (0 + i)) edges) in Hl.
  destruct (edgeElements_from _ _ _ Hl) as [Hlen Hels].
  assert (forall idx edge el, edgeElementOf idx edge = Some (Some el) ->
            edge_source el <> "" /\ edge_target el <> "" /\
            el = EdgeElement ("edge-" +:+ pretty idx) (edge_source el) (edge_target el) /\
            ends edge = (Some (edge_source el), Some (edge_target el))) as Hone.
  { intros idx edge el. unfold edgeElementOf, ends.
    destruct edge as [items|fields| |]; simpl; [| |done|done].
    - destruct (nonEmpty (items !! 0)) as [s|] eqn:Hs; [|done].
      destruct (nonEmpty (items !! 1)) as [t|] eqn:Ht; [|done].
      apply nonEmpty_Some in Hs as [-> Hs]. apply nonEmpty_Some in Ht as [-> Ht].
      by intros [= <-].
    - match goal with |- context [nonEmpty ?v] => destruct (nonEmpty v) as [s|] eqn:Hs end; [|done].
      match goal with |- context [nonEmpty ?v] => destruct (nonEmpty v) as [t|] eqn:Ht end; [|done].
      apply nonEmpty_Some in Hs as [-> Hs]. apply nonEmpty_Some in Ht as [-> Ht].
      by intros [= <-]. }
  split; [by eapply edgeElements_from_NoDup|].
  split; [rewrite <- Hlen; apply omap_length_le|].
  split.
  - intros el Hel. destruct (Hels el Hel) as (idx & edge & _ & Hidx & Hel').
    rewrite Nat.sub_0_r in Hidx.
    destruct (Hone _ _ _ Hel') as (Hs & Ht & Heq & Hends).
    split; [done|]. split; [done|]. by exists idx, edge.
  - intros idx edge Hidx Hmiss Hin.
    apply list_elem_of_fmap in Hin as (el & Hid & Hel).
    destruct (Hels el Hel) as (idx' & edge' & _ & Hidx' & Hel').
    rewrite Nat.sub_0_r in Hidx'.
    destruct (Hone _ _ _ Hel') as (Hs & Ht & Heq & Hends).
    rewrite Heq in Hid. simpl edge_id in Hid. apply edge_id_inj in Hid. subst idx'.
    rewrite Hidx in Hidx'. injection Hidx' as <-. rewrite Hends in Hmiss. simpl in Hmiss.
    destruct Hmiss as [?|[[= ?]|[?|[= ?]]]]; done.
Qed.

(** An array without a target, an object that names its ends [from] and
    [to], and an array: the edges are those of the indices 1 and 2. *)
Lemma edgeElements_ids_witness :
  let edges := [EdgeArray ["A"]; EdgeObject [("from", "A"); ("to", "B")]; EdgeArray ["B"; "C"]] in
  edgeElements edges = Some [EdgeElement "edge-1" "A" "B"; EdgeElement "edge-2" "B" "C"] /\
  "edge-0" ∉ edge_id <$> [EdgeElement "edge-1" "A" "B"; EdgeElement "edge-2" "B" "C"].
Proof.
  intros edges.
  assert (edgeElements edges = Some [EdgeElement "edge-1" "A" "B"; EdgeElement "edge-2" "B" "C"])
    as Hels by (by vm_compute).
  split; [done|].
  destruct (edgeElements_ids _ _ Hels) as (_ & _ & _ & Hskipped).
  apply (Hskipped 0 (EdgeArray ["A"])); [done|]. right. right. by left.
Defined.

(** ** The stored positions *)

(** A position as the JSON text of the item gives it back. *)
Definition stored (pos : position) : position :=
  Position (throughJSON (x pos)) (throughJSON (y pos)).

(** The nodes for which [saveNodePositions] sets an own property. *)
Definition written (nodes : list cyNode) : list cyNode :=
  List.filter (fun node => negb (bool_decide (nodeId node = "__proto__"))) nodes.

Lemma positions_is_Some (nodes : list cyNode) (positions : gmap string position) id :
  is_Some (foldl (fun positions node => assign positions (nodeId node) (nodePosition node))
                 positions nodes !! id)
  <-> (id ∈ nodeId <$> nodes /\ id <> "__proto__") \/ is_Some (positions !! id).
Proof.
  revert positions. induction nodes as [|n nodes IH]; intros positions; simpl.
  - rewrite elem_of_nil. tauto.
  - rewrite IH, elem_of_cons. unfold assign.
    destruct (decide (nodeId n = "__proto__")) as [Hp|Hp].
    + rewrite bool_decide_eq_true_2 by done.
      split; [tauto|]. intros [[[->|?] ?]|?]; [congruence|tauto|tauto].
    + rewrite bool_decide_eq_false_2 by done. rewrite lookup_insert_is_Some.
      destruct (decide (nodeId n = id)) as [<-|Hne]; [tauto|].
      split.
      * intros [[? ?]|[?|[_ ?]]]; [left; split; [by right|done]|done|by right].
      * intros [[[?|?] ?]|?]; [by subst|by left|by right; right].
Qed.

Lemma positions_size_NoDup (nodes : list cyNode) (positions : gmap string position) :
  NoDup (nodeId <$> nodes) ->
  (forall id, id ∈ nodeId <$> nodes -> positions !! id = None) ->
  size (foldl (fun positions node => assign positions (nodeId node) (nodePosition node))
              positions nodes)
  = size positions + length (written nodes).
Proof.
  revert positions. induction nodes as [|n nodes IH]; intros positions Hnd Hnew; simpl; [lia|].
  simpl in Hnd. apply NoDup_cons in Hnd as [Hn Hnd]. unfold assign.
  destruct (decide (nodeId n = "__proto__")) as [Hp|Hp].
  - rewrite !bool_decide_eq_true_2 by done. simpl.
    apply IH; [done|]. intros id Hid. apply Hnew. simpl. by right.
  - rewrite !bool_decide_eq_false_2 by done. simpl. rewrite IH; [|done|].
    + rewrite map_size_insert_None; [lia|]. apply Hnew. simpl. by left.
    + intros id Hid. rewrite lookup_insert_ne; [|by intros Heq; apply Hn; rewrite Heq].
      apply Hnew. simpl. by right.
Qed.

Lemma positions_size (nodes : list cyNode) (positions : gmap string position) :
  size (foldl (fun positions node => assign positions (nodeId node) (nodePosition node))
              positions nodes)
  <= size positions + length nodes.
Proof.
  revert positions. induction nodes as [|n nodes IH]; intros positions; simpl; [lia|].
  etrans; [apply IH|]. unfold assign. case_bool_decide; [lia|]. rewrite map_size_insert.
  destruct (positions !! nodeId n); simpl; lia.
Qed.

Lemma positions_last (earlier later : list cyNode) (positions : gmap string position) id pos :
  id ∉ nodeId <$> later -> id <> "__proto__" ->
  foldl (fun positions node => assign positions (nodeId node) (nodePosition node))
        positions (earlier ++ CyNode id pos :: later) !! id = Some pos.
Proof.
  intros Hid Hp. rewrite foldl_app. simpl.
  rewrite positions_other by done. by rewrite assign_same.
Qed.

Lemma throughJSON_idemp (n : float) : throughJSON (throughJSON n) = throughJSON n.
Proof.
  unfold throughJSON. destruct (n =? 0)%float eqn:Hn; [done|]. by rewrite Hn.
Qed.

Lemma written_all (nodes : list cyNode) :
  "__proto__" ∉ nodeId <$> nodes -> written nodes = nodes.
Proof.
  induction nodes as [|n nodes IH]; intros Hp; [done|].
  simpl in Hp. apply not_elem_of_cons in Hp as [Hn Hp]. unfold written. simpl.
  rewrite bool_decide_eq_false_2 by done. simpl. f_equal. by apply IH.
Qed.

(** X15: what [loadNodePositions] reads after [saveNodePositions]: an
    entry for the id of every node but [__proto__] and for no other id,
    so at most as many entries as nodes, and, the ids being distinct, as
    many as there are nodes with another id than [__proto__]; for an id
    other than [__proto__] the position of the last node that carries it
    (finite coordinates, as the text holds numbers only then), with a
    negative zero read back as zero; a position read back is stored as it
    is. *)
Theorem saved_positions (nodes : list cyNode) :
  let positions := loadNodePositions (saveNodePositions nodes) in
  (forall id, is_Some (positions !! id) <-> id ∈ nodeId <$> nodes /\ id <> "__proto__") /\
  size positions <= length nodes /\
  (NoDup (nodeId <$> nodes) ->
     size positions = length (written nodes) /\
     ("__proto__" ∉ nodeId <$> nodes -> size positions = length nodes)) /\
  (forall earlier later id pos,
     nodes = earlier ++ CyNode id pos :: later ->
     id ∉ nodeId <$> later ->
     id <> "__proto__" ->
     is_finite (x pos) = true -> is_finite (y pos) = true ->
     positions !! id = Some (stored pos)) /\
  (forall id pos, positions !! id = Some pos -> stored pos = pos).
Proof.
  intros positions. unfold positions, saveNodePositions, loadNodePositions. simpl.
  clear positions.
  set (filled := foldl (fun positions node => assign positions (nodeId node) (nodePosition node))
                       ∅ nodes).
  split; [|split; [|split; [|split]]].
  - intros id. rewrite lookup_fmap, fmap_is_Some. unfold filled.
    rewrite positions_is_Some, lookup_empty. split; [intros [?|[? ?]]; done|by left].
  - rewrite map_size_fmap. etrans; [apply positions_size|]. by rewrite map_size_empty.
  - intros Hnd. rewrite map_size_fmap. unfold filled.
    rewrite positions_size_NoDup; [|done|intros id _; apply lookup_empty].
    rewrite map_size_empty. split; [done|]. intros Hp. by rewrite written_all.
  - intros earlier later id pos -> Hid Hp _ _. rewrite lookup_fmap.
    unfold filled. by rewrite positions_last.
  - intros id pos. rewrite lookup_fmap. destruct (filled !! id) as [pos'|]; simpl; [|done].
    intros [= <-]. unfold stored. simpl. by rewrite !throughJSON_idemp.
Qed.

(** ** A page opened again after the positions were saved *)

(** X16: the positions of the graph are saved (as the handlers of
    [layoutstop] and [dragfree] do) and [initGraphViewer] then builds a
    graph: its layout is the fixed one exactly when the saved graph had a
    node with another id than [__proto__], also when none of its nodes is
    among the entries now; a node whose entries carry no position and
    whose id, not [__proto__], is that of a saved node gets the position
    of the last such node, as the text gives it back (finite
    coordinates); a node whose entries carry no position and whose id is
    that of no saved node, or is [__proto__], gets the member of
    [Object.prototype] that its id names, and no position when it names
    none. *)
Theorem initGraphViewer_after_save (net : nat -> fetched) (cyNodes : list cyNode)
    (nodes : list nodeInput) (edges : list edgeInput) (p p' : page) (g : graph) :
  initGraphViewer net true (saveNodePositions cyNodes) nodes edges p = (Built g, p') ->
  (graph_layout g = Preset <->
     exists node, node ∈ cyNodes /\ nodeId node <> "__proto__") /\
  (forall el, el ∈ graph_nodes g ->
     (forall n, n ∈ nodes -> inputId n = Some (data_id el) -> inputPosition n = None) ->
     (forall earlier later pos,
        cyNodes = earlier ++ CyNode (data_id el) pos :: later ->
        data_id el ∉ nodeId <$> later ->
        data_id el <> "__proto__" ->
        is_finite (x pos) = true -> is_finite (y pos) = true ->
        el_position el = Some (Coordinates (stored pos))) /\
     (data_id el ∉ nodeId <$> cyNodes \/ data_id el = "__proto__" ->
      el_position el =
        if bool_decide (data_id el ∈ Object_prototype)
        then Some (Inherited (data_id el)) else None)).
Proof.
  intros Hinit.
  apply initGraphViewer_inv in Hinit as (nodeEls & edgeEls & -> & _ & Hnodes).
  simpl graph_layout. simpl graph_nodes.
  unfold saveNodePositions, loadNodePositions in *. simpl in *.
  assert (forall id,
            is_Some (foldl (fun positions node => assign positions (nodeId node) (nodePosition node))
                           (∅ : gmap string position) cyNodes !! id)
            <-> id ∈ nodeId <$> cyNodes /\ id <> "__proto__") as Hsome.
  { intros id. rewrite positions_is_Some, lookup_empty.
    split; [intros [?|[? ?]]; done|by left]. }
  set (filled := foldl (fun positions node => assign positions (nodeId node) (nodePosition node))
                       ∅ cyNodes) in *.
  split.
  - rewrite map_size_fmap.
    assert (0 < size filled <-> exists node, node ∈ cyNodes /\ nodeId node <> "__proto__")
      as Hsize.
    { split.
      - intros Hlt. assert (filled <> ∅) as Hne.
        { apply map_size_non_empty_iff. lia. }
        apply map_choose in Hne as (id & pos & Hid).
        assert (is_Some (filled !! id)) as Hs by (by eexists).
        apply Hsome in Hs as [Hin Hp].
        apply list_elem_of_fmap in Hin as (node & -> & Hin). by exists node.
      - intros (node & Hin & Hp).
        assert (size filled <> 0); [|lia]. apply map_size_non_empty_iff. intros Hempty.
        assert (is_Some (filled !! nodeId node)) as [? Hs].
        { apply Hsome. split; [|done]. by apply list_elem_of_fmap_2. }
        by rewrite Hempty, lookup_empty in Hs. }
    destruct (Nat.ltb 0 (size filled)) eqn:Hlt.
    + apply Nat.ltb_lt in Hlt. split; [by intros _; apply Hsize|done].
    + apply Nat.ltb_ge in Hlt. split; [done|]. intros Hne. apply Hsize in Hne. lia.
  - intros el Hel Hinput.
    destruct (element_of_input _ _ _ _ Hnodes Hel) as (n & Hn & Hnid & ->).
    rewrite (Hinput n Hn Hnid). unfold readPosition. rewrite lookup_fmap. split.
    + intros earlier later pos Heq Hlater Hp _ _.
      assert (filled !! data_id el = Some pos) as ->; [|done].
      clear Hnodes Hsome. subst filled. rewrite Heq. by apply positions_last.
    + intros Hid. destruct (filled !! data_id el) as [pos|] eqn:Hpos; [|done]. exfalso.
      assert (is_Some (filled !! data_id el)) as Hs by (by eexists).
      apply Hsome in Hs as [Hin Hp]. by destruct Hid.
Qed.

(** The nodes A, at (3, 4), and [__proto__] were saved: the graph of the
    entries A, B and [__proto__] is laid out as stored, with A at (3, 4),
    B without a position and [__proto__] with the inherited member. *)
Lemma initGraphViewer_after_save_witness :
  let cyNodes := [CyNode "A" (Position 3 4); CyNode "__proto__" (Position 7 8)] in
  exists g,
    (initGraphViewer (fun _ => NetworkError) true (saveNodePositions cyNodes)
       [NodeString "A"; NodeString "B"; NodeString "__proto__"] [] page0).1 = Built g /\
    graph_layout g = Preset /\
    graph_nodes g =
      [NodeElement "A" "A" None (Some (Coordinates (Position 3 4)));
       NodeElement "B" "B" None None;
       NodeElement "__proto__" "__proto__" None (Some (Inherited "__proto__"))].
Proof.
  intros cyNodes.
  destruct (initGraphViewer (fun _ => NetworkError) true (saveNodePositions cyNodes)
              [NodeString "A"; NodeString "B"; NodeString "__proto__"] [] page0)
    as [o p'] eqn:Hinit.
  assert (exists g elA elB elP, o = Built g /\ graph_nodes g = [elA; elB; elP] /\
            data_id elA = "A" /\ data_label elA = "A" /\ data_imageUrl elA = None /\
            data_id elB = "B" /\ data_label elB = "B" /\ data_imageUrl elB = None /\
            data_id elP = "__proto__" /\ data_label elP = "__proto__" /\
            data_imageUrl elP = None)
    as (g & elA & elB & elP & -> & Hels & HA & HA' & HA'' & HB & HB' & HB'' & HP & HP' & HP'').
  { vm_compute in Hinit. injection Hinit as <- _. by eexists _, _, _, _. }
  exists g. split; [done|].
  destruct (initGraphViewer_after_save _ _ _ _ _ _ _ Hinit) as [Hlayout Hpos].
  split.
  { apply Hlayout. exists (CyNode "A" (Position 3 4)). split; [by left|done]. }
  assert (forall el, forall n : nodeInput,
            n ∈ [NodeString "A"; NodeString "B"; NodeString "__proto__"] ->
            inputId n = Some (data_id el) -> inputPosition n = None) as Hnone.
  { intros el n Hn _. rewrite !elem_of_cons, elem_of_nil in Hn.
    by destruct Hn as [->|[->|[->|[]]]]. }
  rewrite Hels. f_equal; [|f_equal; [|f_equal]].
  - destruct (Hpos elA) as [Hsaved _]; [rewrite Hels; by left|by apply Hnone|].
    destruct elA as [i l u pp]. simpl in *. subst. f_equal.
    rewrite (Hsaved [] [CyNode "__proto__" (Position 7 8)] (Position 3 4)); try done.
    simpl. rewrite elem_of_cons, elem_of_nil. by intros [?|[]].
  - destruct (Hpos elB) as [_ Hmiss]; [rewrite Hels; right; by left|by apply Hnone|].
    destruct elB as [i l u pp]. simpl in *. subst. f_equal.
    rewrite Hmiss; [by vm_compute|]. left. simpl.
    rewrite !elem_of_cons, elem_of_nil. by intros [?|[?|[]]].
  - destruct (Hpos elP) as [_ Hmiss]; [rewrite Hels; right; right; by left|by apply Hnone|].
    destruct elP as [i l u pp]. simpl in *. subst. f_equal.
    rewrite Hmiss; [by vm_compute|]. by right.
Defined.

(** ** Releasing a node, and the other nodes *)

Lemma positions_drag (g : cyNode -> cyNode) (nodes : list cyNode)
    (positions1 positions2 : gmap string position) id :
  (forall node, nodeId (g node) = nodeId node) ->
  (forall node, nodeId node = id -> g node = node) ->
  positions1 !! id = positions2 !! id ->
  foldl (fun positions node => assign positions (nodeId node) (nodePosition node))
        positions1 (map g nodes) !! id
  = foldl (fun positions node => assign positions (nodeId node) (nodePosition node))
          positions2 nodes !! id.
Proof.
  intros Hids Hsame. revert positions1 positions2.
  induction nodes as [|n nodes IH]; intros positions1 positions2 Heq; [done|].
  simpl. apply IH. rewrite Hids.
  destruct (decide (nodeId n = id)) as [Hn|Hn].
  - rewrite (Hsame n Hn), Hn. unfold assign. case_bool_decide; [done|].
    by rewrite !lookup_insert_eq.
  - by rewrite !assign_other.
Qed.

(** X17: the handler of [dragfree] for the node [target] leaves every
    other node as it is and where it is in [cy.nodes()], keeps the ids,
    changes nothing when the graph has no such node, and stores for every
    other id what a save of the graph before the release would have
    stored. *)
Theorem onDragFree_others (target : string) (nodes : list cyNode) :
  let after := onDragFree target nodes in
  (nodeId <$> after.1) = (nodeId <$> nodes) /\
  (forall i node, nodes !! i = Some node -> nodeId node <> target ->
     after.1 !! i = Some node) /\
  (forall i node, nodes !! i = Some node -> nodeId node = target ->
     after.1 !! i = Some (CyNode target (snapNodeToGrid (nodePosition node)))) /\
  (target ∉ nodeId <$> nodes -> after.1 = nodes) /\
  (forall id, id <> target ->
     loadNodePositions after.2 !! id = loadNodePositions (saveNodePositions nodes) !! id).
Proof.
  unfold onDragFree. simpl.
  set (g := fun node => if bool_decide (nodeId node = target)
                        then CyNode (nodeId node) (snapNodeToGrid (nodePosition node))
                        else node).
  assert (forall node, nodeId (g node) = nodeId node) as Hids.
  { intros node. unfold g. by case_bool_decide. }
  split; [|split; [|split; [|split]]].
  - rewrite <- list_fmap_compose. apply list_fmap_ext. intros i node _. apply Hids.
  - intros i node Hi Hne. change (map g nodes) with (g <$> nodes).
    rewrite list_lookup_fmap, Hi. simpl. unfold g. by rewrite bool_decide_eq_false_2.
  - intros i node Hi Heq. change (map g nodes) with (g <$> nodes).
    rewrite list_lookup_fmap, Hi. simpl. unfold g. rewrite bool_decide_eq_true_2 by done.
    by rewrite Heq.
  - intros Hnone. change (map g nodes) with (g <$> nodes).
    rewrite <- (list_fmap_id nodes) at 2. apply list_fmap_ext. intros i node Hi.
    unfold g. rewrite bool_decide_eq_false_2; [done|].
    intros Heq. apply Hnone. rewrite <- Heq. apply list_elem_of_fmap_2.
    by eapply list_elem_of_lookup_2.
  - intros id Hne. unfold saveNodePositions, loadNodePositions. simpl.
    rewrite !lookup_fmap. f_equal. apply positions_drag; [done| |done].
    intros node Hid. unfold g. rewrite bool_decide_eq_false_2; [done|]. congruence.
Qed.

(** A coordinate snapped twice is the coordinate snapped once. *)
Definition snapsOnce (z : Z) : bool :=
  let snap v := (Math_round (v / GRID_SIZE) * GRID_SIZE)%float in
  PrimFloat.Leibniz.eqb (snap (snap (numZ z))) (snap (numZ z)).

Lemma snap_twice (z : Z) :
  (-10000 <= z <= 10000)%Z ->
  (Math_round ((Math_round (numZ z / GRID_SIZE) * GRID_SIZE) / GRID_SIZE) * GRID_SIZE)%float
  = (Math_round (numZ z / GRID_SIZE) * GRID_SIZE)%float.
Proof.
  intros Hz. apply FloatAxioms.Leibniz.eqb_spec.
  apply (allFrom_spec snapsOnce (-10000) (Z.to_nat 20001)); [by vm_compute|].
  rewrite Z2Nat.id; lia.
Qed.

(** X18: a node at whole coordinates between -10000 and 10000 that is
    released twice (picked up and dropped where the first release put it)
    is where the first release put it, sign of zero included, and the
    stored item is the same. *)
Theorem onDragFree_twice (target : string) (nodes : list cyNode) :
  (forall node, node ∈ nodes -> nodeId node = target ->
     exists a b, (-10000 <= a <= 10000)%Z /\ (-10000 <= b <= 10000)%Z /\
       nodePosition node = Position (numZ a) (numZ b)) ->
  onDragFree target (onDragFree target nodes).1 = onDragFree target nodes.
Proof.
  intros Hwhole. unfold onDragFree. simpl.
  set (g := fun node => if bool_decide (nodeId node = target)
                        then CyNode (nodeId node) (snapNodeToGrid (nodePosition node))
                        else node).
  assert (map g (map g nodes) = map g nodes) as ->; [|done].
  rewrite map_map. apply map_ext_in. intros node Hin.
  apply list_elem_of_In in Hin. unfold g at 2 3.
  case_bool_decide as Hid.
  - unfold g. simpl. rewrite bool_decide_eq_true_2 by done. f_equal.
    destruct (Hwhole node Hin Hid) as (a & b & Ha & Hb & ->).
    unfold snapNodeToGrid. simpl. by rewrite !snap_twice.
  - unfold g. by rewrite bool_decide_eq_false_2.
Qed.

(** The node A at (123, 77) goes to (120, 80) and stays there. *)
Lemma onDragFree_twice_witness :
  let nodes := [CyNode "A" (Position (numZ 123) (numZ 77)); CyNode "B" (Position 0.5 0.5)] in
  (onDragFree "A" nodes).1 = [CyNode "A" (Position 120 80); CyNode "B" (Position 0.5 0.5)] /\
  onDragFree "A" (onDragFree "A" nodes).1 = onDragFree "A" nodes.
Proof.
  intros nodes. split; [by vm_compute|].
  apply onDragFree_twice. intros node Hin Hid.
  apply elem_of_cons in Hin as [->|Hin].
  - exists 123%Z, 77%Z. split; [lia|]. split; [lia|]. done.
  - apply list_elem_of_singleton in Hin as ->. done.
Defined.

(** * Requests for the catalog *)

Lemma loadSymbols_loaded (net : nat -> fetched) (p : page) :
  SYMBOLS_LOADED (cat p) = true -> loadSymbols net p = p.
Proof.
  intros Hl. unfold loadSymbols, loadSymbols_fetches. by rewrite Hl.
Qed.

Lemma loadSymbols_resume_rejected (r : fetched) (c : catalog) :
  rejected r = true -> loadSymbols_resume r c = c.
Proof.
  intros Hr. destruct r as [| | |data]; try done. simpl in *.
  unfold payloadAccepted in Hr.
  destruct (getProp data "success"), (getProp data "symbols"); try done.
  by destruct (truthy _ && truthy _).
Qed.

Lemma loadSymbols_resume_accepted (data symbols : json) (names : list string) (c : catalog) :
  payloadAccepted data = true ->
  getProp data "symbols" = Some (Some symbols) ->
  symbolNames symbols = Some names ->
  loadSymbols_resume (Payload data) c = Catalog symbols names true.
Proof.
  intros Hacc Hsymbols Hnames.
  simpl. unfold payloadAccepted in Hacc. rewrite Hsymbols in *.
  destruct (getProp data "success") as [success|]; [|done].
  rewrite Hacc. simpl. by rewrite Hnames.
Qed.

(** X19: calls of [loadSymbols] one after the other, each awaited, from a
    page whose catalog is not loaded: as long as the requests are rejected
    (no answer, an answer that is not [ok], a body that is no JSON or is
    not accepted) each call sends one more request and leaves the catalog
    as it was; the call whose request brings an accepted payload with
    readable entries loads it, and no call after that sends a request or
    changes anything. *)
Theorem loadSymbols_retry (net : nat -> fetched) (p : page) (k : nat)
    (data symbols : json) (names : list string) :
  SYMBOLS_LOADED (cat p) = false ->
  (forall i, i < k -> rejected (net (sent p + i)) = true) ->
  net (sent p + k) = Payload data ->
  payloadAccepted data = true ->
  getProp data "symbols" = Some (Some symbols) ->
  symbolNames symbols = Some names ->
  (forall n, n <= k -> Nat.iter n (loadSymbols net) p = Page (cat p) (sent p + n)) /\
  (forall n, k < n ->
     Nat.iter n (loadSymbols net) p = Page (Catalog symbols names true) (sent p + k + 1)).
Proof.
  intros Hl Hrej Hnet Hacc Hsymbols Hnames.
  assert (forall n, n <= k -> Nat.iter n (loadSymbols net) p = Page (cat p) (sent p + n)) as Hfail.
  { induction n as [|n IH]; intros Hn.
    - simpl. rewrite Nat.add_0_r. by destruct p.
    - simpl. rewrite IH by lia. unfold loadSymbols, loadSymbols_fetches. simpl. rewrite Hl. simpl.
      rewrite loadSymbols_resume_rejected by (apply Hrej; lia). f_equal. lia. }
  split; [exact Hfail|].
  assert (Nat.iter (S k) (loadSymbols net) p = Page (Catalog symbols names true) (sent p + k + 1))
    as Hload.
  { simpl. rewrite Hfail by lia. unfold loadSymbols, loadSymbols_fetches. simpl. rewrite Hl. simpl.
    rewrite Hnet, (loadSymbols_resume_accepted _ _ _ _ Hacc Hsymbols Hnames). f_equal. lia. }
  intros n Hn. replace n with ((n - S k) + S k) by lia.
  induction (n - S k) as [|m IH]; [exact Hload|].
  simpl. rewrite IH. by apply loadSymbols_loaded.
Qed.

(** Two requests without an answer, then the catalog: the third call
    loads it and the fourth sends nothing. *)
Lemma loadSymbols_retry_witness :
  let net := fun i => if Nat.ltb i 2 then NetworkError else goodPayload in
  Nat.iter 2 (loadSymbols net) page0 = Page catalog0 2 /\
  SYMBOLS_LOADED (cat (Nat.iter 3 (loadSymbols net) page0)) = true /\
  Nat.iter 4 (loadSymbols net) page0 = Nat.iter 3 (loadSymbols net) page0.
Proof.
  intros net.
  destruct (loadSymbols_retry net page0 2
              (JObj [("success", JBool true);
                     ("symbols", JArr [JObj [("name", JStr "Ball Valve"); ("category", JStr "valves")];
                                       JStr "pump"])])
              (JArr [JObj [("name", JStr "Ball Valve"); ("category", JStr "valves")]; JStr "pump"])
              ["ball_valve"; "pump"]) as [Hfail Hloaded].
  - done.
  - intros i Hi. simpl. unfold net. by rewrite (proj2 (Nat.ltb_lt i 2) Hi).
  - done.
  - by vm_compute.
  - by vm_compute.
  - by vm_compute.
  - split; [by rewrite Hfail by lia|]. rewrite (Hloaded 3), (Hloaded 4) by lia. done.
Defined.

Lemma getNodeStyle_page (net : nat -> fetched) (nodeName : string) (p : page) :
  (getNodeStyle net nodeName p).2 = loadSymbols net p.
Proof.
  unfold getNodeStyle.
  destruct (SYMBOLS_LOADED (cat p)) eqn:Hl.
  - rewrite loadSymbols_loaded by done. by destruct (findBestSymbol _ _).
  - by destruct (findBestSymbol _ _).
Qed.

Lemma loadSymbols_sent (net : nat -> fetched) (p : page) :
  sent p <= sent (loadSymbols net p) <= S (sent p).
Proof.
  unfold loadSymbols. destruct (loadSymbols_fetches (cat p)); simpl; lia.
Qed.

Lemma nodeElementOf_page net positionsMap n p :
  (nodeElementOf net positionsMap n p).2 = p \/
  (nodeElementOf net positionsMap n p).2 = loadSymbols net p.
Proof.
  unfold nodeElementOf. destruct n as [id|id imageUrl pos| |]; simpl; [| |by left|by left].
  - right. rewrite <- (getNodeStyle_page net id p). by destruct (getNodeStyle net id p).
  - destruct (nonEmpty id) as [id'|]; simpl; [|by left].
    destruct (nonEmpty imageUrl) as [url|]; simpl; [by left|].
    right. rewrite <- (getNodeStyle_page net id' p). by destruct (getNodeStyle net id' p).
Qed.

Lemma nodeElements_page net positionsMap nodes p :
  let p' := (nodeElements net positionsMap nodes p).2 in
  sent p <= sent p' <= sent p + length nodes /\
  (SYMBOLS_LOADED (cat p) = true -> p' = p).
Proof.
  revert p. induction nodes as [|n nodes IH]; intros p; simpl; [split; [lia|done]|].
  pose proof (nodeElementOf_page net positionsMap n p) as Hone.
  pose proof (loadSymbols_sent net p) as Hsent.
  destruct (nodeElementOf net positionsMap n p) as [[el|] p1]; simpl in *.
  - specialize (IH p1). destruct (nodeElements net positionsMap nodes p1) as [els p2].
    simpl in *. destruct IH as [IHsent IHsame]. split.
    + destruct Hone as [->| ->]; lia.
    + intros Hl. assert (p1 = p) as -> by (destruct Hone as [->| ->]; [done|by apply loadSymbols_loaded]).
      by apply IHsame.
  - split.
    + destruct Hone as [->| ->]; lia.
    + intros Hl. destruct Hone as [->| ->]; [done|by apply loadSymbols_loaded].
Qed.

(** X20: however a call of [initGraphViewer] ends, it sends at most one
    request for the catalog at its start and one for each entry of
    [nodes]; when the catalog is loaded after the first one (or was
    before the call) no entry sends another, and the catalog is as that
    first call left it; without the container no entry is looked at. *)
Theorem initGraphViewer_requests (net : nat -> fetched) (container : bool) (saved : storage)
    (nodes : list nodeInput) (edges : list edgeInput) (p : page) :
  let p' := (initGraphViewer net container saved nodes edges p).2 in
  sent p <= sent p' <= sent p + 1 + length nodes /\
  (SYMBOLS_LOADED (cat (loadSymbols net p)) = true -> p' = loadSymbols net p) /\
  (SYMBOLS_LOADED (cat p) = true -> p' = p) /\
  (container = false -> p' = loadSymbols net p).
Proof.
  unfold initGraphViewer, ensureSymbolsLoaded.
  pose proof (loadSymbols_sent net p) as Hsent.
  destruct container; simpl negb; cbv iota.
  - pose proof (nodeElements_page net (loadNodePositions saved) nodes (loadSymbols net p)) as Hnodes.
    destruct (nodeElements _ _ _ _) as [[nodeEls|] p1]; simpl in *.
    + destruct Hnodes as [Hle Hsame].
      destruct (edgeElements edges); simpl;
        (split; [lia|]; split; [exact Hsame|]; split; [|done]);
        intros Hl; rewrite (loadSymbols_loaded net p Hl) in *; by apply Hsame.
    + destruct Hnodes as [Hle Hsame].
      split; [lia|]. split; [exact Hsame|]. split; [|done].
      intros Hl. rewrite (loadSymbols_loaded net p Hl) in *. by apply Hsame.
  - simpl. split; [lia|]. split; [done|]. split; [|done].
    intros Hl. by apply loadSymbols_loaded.
Qed.

(** ** How a call of initGraphViewer ends *)

Lemma nodeElements_until_null net positionsMap before after p :
  NodeNull ∉ before ->
  nodeElements net positionsMap (before ++ NodeNull :: after) p =
    (None, (nodeElements net positionsMap before p).2).
Proof.
  revert p. induction before as [|n before IH]; intros p Hnull; [done|].
  apply not_elem_of_cons in Hnull as [Hn Hnull]. simpl.
  destruct (nodeElementOf_spec net positionsMap n p) as (el & p1 & -> & _); [done|].
  rewrite (IH p1 Hnull).
  by destruct (nodeElements net positionsMap before p1) as [els p2].
Qed.

(** X12: [initGraphViewer] returns nothing exactly when the container is
    missing, having asked for the catalog all the same and looked at no
    entry; with the container, a [null] among [nodes] or among [edges]
    makes the call throw, whatever the other entries are, and for a
    [null] among [nodes] the entries after the first one are not looked
    at: the page is as the entries before it left it, and at most one
    request was sent for each of them; so a graph is returned only when
    the container is there and neither list holds a [null]. *)
Theorem initGraphViewer_outcome (net : nat -> fetched) (container : bool) (saved : storage)
    (nodes : list nodeInput) (edges : list edgeInput) (p : page) :
  let r := initGraphViewer net container saved nodes edges p in
  (r.1 = NoContainer <-> container = false) /\
  (container = false -> r.2 = loadSymbols net p) /\
  (container = true -> NodeNull ∈ nodes \/ EdgeNull ∈ edges -> r.1 = Thrown) /\
  (forall before after,
     container = true -> nodes = before ++ NodeNull :: after -> NodeNull ∉ before ->
     r.2 = (nodeElements net (loadNodePositions saved) before (loadSymbols net p)).2 /\
     sent r.2 <= sent p + 1 + length before) /\
  (forall g, r.1 = Built g -> container = true /\ (NodeNull ∉ nodes) /\ (EdgeNull ∉ edges)).
Proof.
  destruct container.
  - assert (forall before after, nodes = before ++ NodeNull :: after -> NodeNull ∉ before ->
              (initGraphViewer net true saved nodes edges p).2 =
                (nodeElements net (loadNodePositions saved) before (loadSymbols net p)).2 /\
              sent (initGraphViewer net true saved nodes edges p).2 <= sent p + 1 + length before)
      as Hbefore.
    { intros before after -> Hnull. unfold initGraphViewer, ensureSymbolsLoaded.
      simpl negb. cbv iota zeta. rewrite nodeElements_until_null by done. simpl.
      split; [done|].
      pose proof (nodeElements_page net (loadNodePositions saved) before (loadSymbols net p)) as [Hle _].
      pose proof (loadSymbols_sent net p). simpl in Hle. lia. }
    destruct (NodeNull_dec nodes) as [Hn|Hn].
    + pose proof (nodeElements_null net (loadNodePositions saved) nodes
                    (ensureSymbolsLoaded net p) Hn) as Hnull.
      revert Hbefore. unfold initGraphViewer. simpl negb. cbv iota zeta.
      destruct (nodeElements _ _ _ _) as [els p1]. simpl in Hnull. subst els. simpl.
      intros Hbefore.
      split; [by split|]. split; [done|]. split; [done|]. split; [intros before after _; by apply (Hbefore before after)|].
      by intros g.
    + destruct (EdgeNull_dec edges) as [He|He].
      * destruct (nodeElements_spec net (loadNodePositions saved) nodes
                    (ensureSymbolsLoaded net p) Hn) as (els & p1 & Hels & _).
        revert Hbefore. unfold initGraphViewer. simpl negb. cbv iota zeta.
        rewrite Hels, (edgeElements_null edges He). simpl. intros Hbefore.
        split; [by split|]. split; [done|]. split; [done|]. split; [intros before after _; by apply (Hbefore before after)|].
        by intros g.
      * destruct (initGraphViewer_builds net saved nodes edges p Hn He)
          as (nodeEls & edgeEls & p' & Hinit & _).
        revert Hbefore. rewrite Hinit. simpl. intros Hbefore.
        split; [by split|]. split; [done|]. split; [by intros _ [?|?]|].
        split; [intros before after _; by apply (Hbefore before after)|]. by intros g _.
  - unfold initGraphViewer. simpl.
    split; [by split|]. split; [done|]. split; [done|]. split; [done|]. by intros g.
Qed.
